(** * The Srinivas (2015) translation scheme, Figure 3.4

    A shallow embedding of [schemes/srinivas2015.ts], a Nuskell translation
    scheme that compiles a formal chemical reaction network into domain-level
    DNA complexes.  Every macro and module of the scheme is a function in a
    state-and-failure monad: the state is the counter of the domain allocator
    behind [short()] and [long()]; failure stands for a run-time error of the
    scheme (an index out of range, a missing attribute, a destructuring
    assignment whose right-hand side has the wrong length). *)

From Stdlib Require Import List ZArith Lia String Bool Arith.
Import ListNotations.

Set Implicit Arguments.
Set Warnings "-register-all".

(** ** Domains *)

Module Dna.

Inductive kind := Short | Long.

(** A domain carries the number that names it, whether it was made by
    [short] or [long], the keyword arguments it was made with, and whether
    it is the starred (complementary) form. *)
Record domain := mkDomain {
  dname : nat;
  dkind : kind;
  dargs : list (string * string);
  dstar : bool }.

Definition comp (d : domain) : domain :=
  mkDomain (dname d) (dkind d) (dargs d) (negb (dstar d)).

(** The unstarred form of a domain. *)
Definition base (d : domain) : domain :=
  mkDomain (dname d) (dkind d) (dargs d) false.

Definition kind_eqb (a b : kind) : bool :=
  match a, b with Short, Short | Long, Long => true | _, _ => false end.

Definition arg_eqb (a b : string * string) : bool :=
  (fst a =? fst b)%string && (snd a =? snd b)%string.

Fixpoint args_eqb (a b : list (string * string)) : bool :=
  match a, b with
  | [], [] => true
  | x :: a', y :: b' => arg_eqb x y && args_eqb a' b'
  | _, _ => false
  end.

Definition domain_eqb (a b : domain) : bool :=
  (dname a =? dname b)%nat && kind_eqb (dkind a) (dkind b)
  && args_eqb (dargs a) (dargs b) && Bool.eqb (dstar a) (dstar b).

(** [long(tag:'history')] *)
Definition history_tagged (d : domain) : Prop :=
  In ("tag", "history")%string (dargs d).

(** ** Complexes *)

(** One position of a sequence: a domain or the strand break [+]. *)
Inductive item := Dom (d : domain) | Break.

(** One position of a structure: [(], [)], [.] or [+]. *)
Inductive pchar := Open | Close | Dot | Plus.

(** The value of a DNA expression ["sequence" | "structure"]: the two
    flattened lists, and the attributes, which give back the value each name
    of the sequence was bound to (a domain, or for a name under [~] a list
    of complexes). *)
Inductive cplx :=
  Cplx (sequence : list item) (structure : list pchar)
       (attributes : list (string * (domain + list cplx))).

Definition sequence (c : cplx) : list item :=
  match c with Cplx s _ _ => s end.
Definition structure (c : cplx) : list pchar :=
  match c with Cplx _ t _ => t end.
Definition attributes (c : cplx) : list (string * (domain + list cplx)) :=
  match c with Cplx _ _ a => a end.

(** The positions of a DNA expression, each name with the value it is bound
    to where the expression is evaluated. *)
Inductive tok :=
| TDom (x : string) (d : domain) (p : pchar)   (* name x over ( ) or . *)
| TStar (x : string) (d : domain) (p : pchar)  (* name x* over ( ) or . *)
| TBreak                                       (* + over + *)
| TSplice (x : string) (l : list cplx).        (* name x over ~ *)

Definition tok_seq (t : tok) : list item :=
  match t with
  | TDom _ d _ => [Dom d]
  | TStar _ d _ => [Dom (comp d)]
  | TBreak => [Break]
  | TSplice _ l => flat_map sequence l
  end.

Definition tok_str (t : tok) : list pchar :=
  match t with
  | TDom _ _ p => [p]
  | TStar _ _ p => [p]
  | TBreak => [Plus]
  | TSplice _ l => flat_map structure l
  end.

Definition tok_attr (t : tok) : list (string * (domain + list cplx)) :=
  match t with
  | TDom x d _ => [(x, inl d)]
  | TStar x d _ => [(x, inl d)]
  | TBreak => []
  | TSplice x l => [(x, inr l)]
  end.

(** Modelled from the spec: the value of a DNA expression.  A name over
    [(], [)] or [.] contributes its domain, or the complement when it is
    starred; [+] contributes a strand break; a name over [~] contributes the
    sequences and structures of the complexes bound to it, flattened into
    place. *)
Definition dna (ts : list tok) : cplx :=
  Cplx (flat_map tok_seq ts) (flat_map tok_str ts) (flat_map tok_attr ts).

Fixpoint assoc {A} (x : string) (l : list (string * A)) : option A :=
  match l with
  | [] => None
  | (y, a) :: l' => if (x =? y)%string then Some a else assoc x l'
  end.

(** [c.x] where a domain is expected. *)
Definition dom_attr (c : cplx) (x : string) : option domain :=
  match assoc x (attributes c) with
  | Some (inl d) => Some d
  | _ => None
  end.

(** [c.x] where a list of complexes is expected. *)
Definition list_attr (c : cplx) (x : string) : option (list cplx) :=
  match assoc x (attributes c) with
  | Some (inr l) => Some l
  | _ => None
  end.

(** The domains of a sequence, and its strands: the maximal runs of domains
    between strand breaks, a run without any domain not counted. *)
Fixpoint domains (s : list item) : list domain :=
  match s with
  | [] => []
  | Dom d :: s' => d :: domains s'
  | Break :: s' => domains s'
  end.

Fixpoint split_strands (s : list item) (cur : list domain) : list (list domain) :=
  match s with
  | [] => [rev cur]
  | Dom d :: s' => split_strands s' (d :: cur)
  | Break :: s' => rev cur :: split_strands s' []
  end.

Definition nonempty {A} (l : list A) : bool :=
  match l with [] => false | _ => true end.

Definition strands (c : cplx) : list (list domain) :=
  filter nonempty (split_strands (sequence c) []).

End Dna.
Export Dna.

(** ** The evaluation monad *)

Module Monad.

Definition M (A : Type) : Type := nat -> option (A * nat).

Definition ret {A} (a : A) : M A := fun n => Some (a, n).

Definition bind {A B} (c : M A) (f : A -> M B) : M B :=
  fun n => match c n with
           | Some (a, n') => f a n'
           | None => None
           end.

Definition lift {A} (o : option A) : M A :=
  fun n => match o with Some a => Some (a, n) | None => None end.

Definition obind {A B} (o : option A) (f : A -> option B) : option B :=
  match o with Some a => f a | None => None end.

Fixpoint mapM {A B} (f : A -> M B) (l : list A) : M (list B) :=
  match l with
  | [] => ret []
  | a :: l' => bind (f a) (fun b => bind (mapM f l') (fun bs => ret (b :: bs)))
  end.

Fixpoint omap {A B} (f : A -> option B) (l : list A) : option (list B) :=
  match l with
  | [] => Some []
  | a :: l' => obind (f a) (fun b => obind (omap f l') (fun bs => Some (b :: bs)))
  end.

End Monad.
Export Monad.

Notation "x <- c1 ;; c2" := (bind c1 (fun x => c2))
  (at level 61, c1 at next level, right associativity).
Notation "' pat <- c1 ;; c2" :=
  (bind c1 (fun x => match x with pat => c2 end))
  (at level 61, pat pattern, c1 at next level, right associativity).

(** ** Built-in functions of the scheme language *)

Module Builtin.

Definition len {A} (l : list A) : Z := Z.of_nat (List.length l).

(** [l[i]]; an index at or beyond the length of the list is an error.  The
    scheme forms no negative index on a list that is not empty; here a
    negative index has no value either. *)
Definition idx {A} (l : list A) (i : Z) : option A :=
  if (i <? 0)%Z then None else nth_error l (Z.to_nat i).

(** [tail(l)], the slice after the first element. *)
Definition tail {A} (l : list A) : list A := tl l.

Definition reverse {A} (l : list A) : list A := rev l.

(** [range(n)] is [0, ..., n-1]; it has no value at a negative [n]. *)
Definition range (n : Z) : option (list Z) :=
  if (n <? 0)%Z then None
  else Some (map Z.of_nat (seq 0 (Z.to_nat n))).

(** [map(f, l)] and [map2(f, y, l)], which calls [f(y, x)] at each [x] of
    [l], both from left to right. *)
Definition map' {A B} (f : A -> M B) (l : list A) : M (list B) := mapM f l.
Definition map2 {A B C} (f : A -> B -> M C) (y : A) (l : list B) : M (list C) :=
  mapM (f y) l.

(** Modelled from the spec: [flip(l, n)], the transpose of a list of rows of
    width [n] into [n] columns; the width is given so that no row at all
    still yields [n] empty columns. *)
Definition flip {A} (l : list (list A)) (n : Z) : option (list (list A)) :=
  obind (range n) (omap (fun j => omap (fun row => idx row j) l)).

(** A member of a solution: a complex and whether its concentration is
    held infinite. *)
Record member := mkMember { m_cplx : cplx; m_infinite : bool }.

(** A solution is represented by the list of its members; two lists with
    the same members are the same solution. *)
Definition solution := list member.

Definition same_solution (a b : solution) : Prop :=
  forall x, In x a <-> In x b.

Definition empty : solution := [].

(** Modelled from the spec: [infty(c)], the solution of [c] alone, present
    in unbounded supply. *)
Definition infty (c : cplx) : solution := [mkMember c true].

(** Modelled from the spec: [sum(l)], the union of the solutions of [l]. *)
Fixpoint sum (l : list solution) : solution :=
  match l with
  | [] => empty
  | [x] => x
  | x :: l' => x ++ sum l'
  end.

Record reaction := mkReaction {
  reactants : list cplx;
  products : list cplx;
  reversible : bool }.

(** Modelled from the spec: [irrev_reactions(crn)] replaces each reversible
    reaction by its forward and then its backward irreversible instance and
    keeps the irreversible reactions as they are. *)
Definition irrev_reactions (crn : list reaction) : list reaction :=
  flat_map (fun r =>
    if reversible r
    then [mkReaction (reactants r) (products r) false;
          mkReaction (products r) (reactants r) false]
    else [r]) crn.

(** Modelled from the spec: the domain allocator.  [short(...)] and
    [long(...)] issue a domain distinct from every domain issued before,
    named by a counter that they advance. *)
Definition fresh (k : kind) (args : list (string * string)) : M domain :=
  fun n => Some (mkDomain n k args false, S n).

Definition short := fresh Short.
Definition long := fresh Long.

End Builtin.
Export Builtin.

(** ** The scheme *)

Module Srinivas.

Local Open Scope string_scope.

(** [x.a] for an [x] that is itself the result of an indexing. *)
Definition field (x : option cplx) (a : string) : option domain :=
  obind x (fun c => dom_attr c a).

(** The destructuring assignments [[a] = e] and [[a, b, c] = e]. *)
Definition single {A} (l : list A) : option A :=
  match l with [a] => Some a | _ => None end.

Definition triple {A} (l : list A) : option (A * A * A) :=
  match l with [a; b; c] => Some (a, b, c) | _ => None end.

(** [class formal(s)]: the signal strand of a formal species. *)
Definition formal (s : string) : M cplx :=
  f <- short [("top", "WHHHHW"); ("bottom", "WDDDDW")] ;;
  m <- long [("len", "2")] ;;
  s <- short [] ;;
  ret (dna [TDom "f" f Dot; TDom "m" m Dot; TDom "s" s Dot]).

Definition prodg (s : cplx) : M (list cplx) :=
  hy <- long [("tag", "history")] ;;
  fy <- lift (dom_attr s "f") ;;
  my <- lift (dom_attr s "m") ;;
  sy <- lift (dom_attr s "s") ;;
  ret [ dna [TDom "hy" hy Open; TDom "fy" fy Open; TDom "my" my Dot;
             TDom "sy" sy Dot; TBreak];
        dna [TStar "fy" fy Close; TStar "hy" hy Close];
        dna [TDom "hy" hy Dot; TDom "fy" fy Dot] ].

Definition srinivas_pgate (r p : list cplx) (hflux : domain) : M (list cplx) :=
  sa <- lift (field (idx r (len r - 1)) "s") ;;
  let hx := hflux in
  fx <- lift (field (idx p 0) "f") ;;
  mx <- lift (field (idx p 0) "m") ;;
  sx <- lift (field (idx p 0) "s") ;;
  '(n, m, help) <- (g <- map' prodg (tail p) ;; lift (obind (flip g 3) triple)) ;;
  let m := reverse m in
  ret [ dna [TDom "hx" hx Open; TDom "fx" fx Open; TDom "mx" mx Dot;
             TDom "sx" sx Dot; TBreak; TSplice "n" n; TBreak; TSplice "m" m;
             TStar "fx" fx Close; TStar "hx" hx Close; TStar "sa" sa Dot];
        dna [TDom "fx" fx Dot; TSplice "help" help] ].

Definition srinivas_pgate_p1 (r p : list cplx) (hflux : domain) : M (list cplx) :=
  sa <- lift (field (idx r (len r - 1)) "s") ;;
  let hx := hflux in
  fx <- lift (field (idx p 0) "f") ;;
  mx <- lift (field (idx p 0) "m") ;;
  sx <- lift (field (idx p 0) "s") ;;
  ret [ dna [TDom "hx" hx Open; TDom "fx" fx Open; TDom "mx" mx Dot;
             TDom "sx" sx Dot; TBreak;
             TStar "fx" fx Close; TStar "hx" hx Close; TStar "sa" sa Dot] ].

(** A [where] clause belongs to the branch it follows: its bindings are
    evaluated in order when that branch is taken, before its expression. *)
Definition flux (r p : list cplx) : M (list (list cplx)) :=
  if (len p =? 0)%Z then ret [[]]
  else if (len p =? 1)%Z then
    h <- long [] ;;
    f <- lift (field (idx p 0) "f") ;;
    ret [[ dna [TDom "h" h Dot; TDom "f" f Dot] ]]
  else
    h <- long [] ;;
    f <- lift (field (idx p 0) "f") ;;
    ret [[ dna [TDom "h" h Dot] ]].

Definition reactg (r : list cplx) (i : Z) : M (list cplx) :=
  mb <- lift (field (idx r i) "m") ;;
  sb <- lift (field (idx r i) "s") ;;
  fa <- lift (field (idx r (i + 1)) "f") ;;
  ret [ dna [TDom "mb" mb Open; TDom "sb" sb Open; TDom "fa" fa Open; TBreak];
        dna [TStar "fa" fa Close; TStar "sb" sb Close; TStar "mb" mb Close];
        dna [TDom "mb" mb Dot; TDom "sb" sb Dot; TDom "fa" fa Dot] ].

(** The junction groups of a reactant list:
    [map2(reactg, r, range(len(r)-1))]. *)
Definition junctions (r : list cplx) : M (list (list cplx)) :=
  ix <- lift (range (len r - 1)) ;;
  map2 reactg r ix.

Definition srinivas_rgate (r p : list cplx) : M (list cplx) :=
  fr <- lift (field (idx r 0) "f") ;;
  mr <- lift (field (idx r (len r - 1)) "m") ;;
  sr <- lift (field (idx r (len r - 1)) "s") ;;
  fl <- (v <- flux r p ;; lift (single v)) ;;
  '(n, m, l) <- (g <- junctions r ;; lift (obind (flip g 3) triple)) ;;
  let m := reverse m in
  ret [ dna [TSplice "n" n; TBreak; TDom "mr" mr Open; TDom "sr" sr Open;
             TSplice "fl" fl; TBreak; TStar "sr" sr Close; TStar "mr" mr Close;
             TSplice "m" m; TStar "fr" fr Dot];
        dna [TSplice "l" l] ].

Definition srinivas_rgate_r0 (r p : list cplx) : M (list cplx) :=
  f <- short [] ;;
  m <- long [] ;;
  s <- short [] ;;
  let fr := f in
  let mr := m in
  let sr := s in
  fl <- (v <- flux r p ;; lift (single v)) ;;
  ret [ dna [TDom "mr" mr Open; TDom "sr" sr Open; TSplice "fl" fl; TBreak;
             TStar "sr" sr Close; TStar "mr" mr Close; TStar "fr" fr Dot];
        dna [TDom "f" f Dot; TDom "m" m Dot; TDom "s" s Dot] ].

(** [react[0].fl[0].h] *)
Definition hist_of (react : list cplx) : option domain :=
  obind (idx react 0) (fun c =>
  obind (list_attr c "fl") (fun fl =>
  field (idx fl 0) "h")).

(** The two [where] bindings of [rxn], [react] and [produce]. *)
Definition react_of (r : reaction) : M (list cplx) :=
  if (len (reactants r) =? 0)%Z then
    srinivas_rgate_r0 (reactants r) (products r)
  else
    srinivas_rgate (reactants r) (products r).

Definition produce_of (r : reaction) (react : list cplx) : M (list cplx) :=
  if (len (products r) =? 0)%Z then
    ret []
  else if (len (products r) =? 1)%Z then
    if (len (reactants r) =? 0)%Z then
      hist <- lift (hist_of react) ;;
      srinivas_pgate_p1 react (products r) hist
    else
      hist <- lift (hist_of react) ;;
      srinivas_pgate_p1 (reactants r) (products r) hist
  else
    if (len (reactants r) =? 0)%Z then
      hist <- lift (hist_of react) ;;
      srinivas_pgate react (products r) hist
    else
      hist <- lift (hist_of react) ;;
      srinivas_pgate (reactants r) (products r) hist.

Definition rxn (r : reaction) : M solution :=
  react <- react_of r ;;
  produce <- produce_of r react ;;
  ret (sum (map infty (react ++ produce)%list)).

Definition main (crn : list reaction) : M solution :=
  let crn := irrev_reactions crn in
  v <- map' rxn crn ;;
  ret (sum v).

End Srinivas.
Export Srinivas.

(** ** Formal species and well-formed complexes *)

Module Wf.

Local Open Scope string_scope.

(** The three domains [f], [m], [s] of a formal species. *)
Definition sp : Type := domain * domain * domain.

Definition spf (t : sp) : domain := fst (fst t).
Definition spm (t : sp) : domain := snd (fst t).
Definition sps (t : sp) : domain := snd t.

(** The complex ["f m s" | ". . ."] that [formal] builds from its three
    domains. *)
Definition species (t : sp) : cplx :=
  dna [TDom "f" (spf t) Dot; TDom "m" (spm t) Dot; TDom "s" (sps t) Dot].

(** A reaction between formal species. *)
Definition rx (R P : list sp) (rev : bool) : reaction :=
  mkReaction (map species R) (map species P) rev.

(** Reading a sequence against its structure from left to right with the
    stack of the domains under a still open parenthesis: every position of
    the sequence has one of the structure, a strand break stands over [+]
    and nothing else does, a [)] closes the last open domain and stands
    under its complement. *)
Fixpoint check (s : list item) (t : list pchar) (stack : list domain)
  : option (list domain) :=
  match s, t with
  | [], [] => Some stack
  | Dom d :: s', Open :: t' => check s' t' (d :: stack)
  | Dom d :: s', Close :: t' =>
      match stack with
      | e :: stack' =>
          if domain_eqb d (comp e) then check s' t' stack' else None
      | [] => None
      end
  | Dom _ :: s', Dot :: t' => check s' t' stack
  | Break :: s', Plus :: t' => check s' t' stack
  | _, _ => None
  end.

Definition well_formed (c : cplx) : bool :=
  match check (sequence c) (structure c) [] with
  | Some [] => true
  | _ => false
  end.

(** The pair table of a structure read from position [i] on with the
    positions [opened] still open: each opening parenthesis with the one
    that closes it; there is none when the nesting is not balanced. *)
Fixpoint pair_table (t : list pchar) (i : nat) (opened : list nat)
  : option (list (nat * nat)) :=
  match t with
  | [] => match opened with [] => Some [] | _ => None end
  | Open :: t' => pair_table t' (S i) (i :: opened)
  | Close :: t' =>
      match opened with
      | j :: opened' =>
          match pair_table t' (S i) opened' with
          | Some pt => Some ((j, i) :: pt)
          | None => None
          end
      | [] => None
      end
  | _ :: t' => pair_table t' (S i) opened
  end.

(** What a complex owes its structure: as many positions in the structure
    as in the sequence, the strand breaks at the same positions, a balanced
    nesting, and complementary domains at the two positions of every
    pair. *)
Definition pairing_ok (c : cplx) : Prop :=
  List.length (sequence c) = List.length (structure c)
  /\ (forall i, nth_error (sequence c) i = Some Break
                <-> nth_error (structure c) i = Some Plus)
  /\ exists pt,
       pair_table (structure c) 0 [] = Some pt
       /\ forall i j, In (i, j) pt ->
            exists d, nth_error (sequence c) i = Some (Dom d)
                      /\ nth_error (sequence c) j = Some (Dom (comp d)).

(** The domains of a solution. *)
Definition solution_domains (l : solution) : list domain :=
  flat_map (fun x => domains (sequence (m_cplx x))) l.

Definition species_domains (l : list sp) : list domain :=
  flat_map (fun t => [spf t; spm t; sps t]) l.

Definition crn_domains (crn : list (list sp * list sp * bool)) : list domain :=
  flat_map (fun r => (species_domains (fst (fst r))
                      ++ species_domains (snd (fst r)))%list) crn.

(** No two distinct domains share a name: a starred and an unstarred form
    apart, the number decides the domain. *)
Definition names_unique (ds : list domain) : Prop :=
  forall d e, In d ds -> In e ds -> dname d = dname e -> base d = base e.

End Wf.
Export Wf.

(** ** Closed forms of what the builders return *)

Module Shape.

Local Open Scope string_scope.

(** The domain [long()] issues at counter [n], and the one
    [long(tag:'history')] issues there. *)
Definition h_at (n : nat) : domain := mkDomain n Long [] false.
Definition hy_at (n : nat) : domain :=
  mkDomain n Long [("tag", "history")] false.

(** The products paired with the history domains that [prodg] allocates
    for them from counter [n] on. *)
Fixpoint with_history (n : nat) (P : list sp) : list (domain * sp) :=
  match P with
  | [] => []
  | t :: P' => (hy_at n, t) :: with_history (S n) P'
  end.

Definition prodg1 (x : domain * sp) : cplx :=
  dna [TDom "hy" (fst x) Open; TDom "fy" (spf (snd x)) Open;
       TDom "my" (spm (snd x)) Dot; TDom "sy" (sps (snd x)) Dot; TBreak].
Definition prodg2 (x : domain * sp) : cplx :=
  dna [TStar "fy" (spf (snd x)) Close; TStar "hy" (fst x) Close].
Definition prodg3 (x : domain * sp) : cplx :=
  dna [TDom "hy" (fst x) Dot; TDom "fy" (spf (snd x)) Dot].
Definition prodg_row (x : domain * sp) : list cplx :=
  [prodg1 x; prodg2 x; prodg3 x].

(** The triples [(mb, sb, fa)] of the junctions of a reactant list: the
    [m] and [s] of each reactant but the last with the [f] of the next. *)
Definition jn : Type := domain * domain * domain.

Definition jmb (x : jn) : domain := fst (fst x).
Definition jsb (x : jn) : domain := snd (fst x).
Definition jfa (x : jn) : domain := snd x.

Fixpoint links (R : list sp) : list jn :=
  match R with
  | a :: (b :: _) as R' => (spm a, sps a, spf b) :: links R'
  | _ => []
  end.

Definition reactg1 (x : jn) : cplx :=
  dna [TDom "mb" (jmb x) Open; TDom "sb" (jsb x) Open;
       TDom "fa" (jfa x) Open; TBreak].
Definition reactg2 (x : jn) : cplx :=
  dna [TStar "fa" (jfa x) Close; TStar "sb" (jsb x) Close;
       TStar "mb" (jmb x) Close].
Definition reactg3 (x : jn) : cplx :=
  dna [TDom "mb" (jmb x) Dot; TDom "sb" (jsb x) Dot; TDom "fa" (jfa x) Dot].
Definition reactg_row (x : jn) : list cplx :=
  [reactg1 x; reactg2 x; reactg3 x].

(** The flux of a product list at counter [n], and how far it advances the
    counter. *)
Definition flux_at (n : nat) (P : list sp) : list cplx :=
  match P with
  | [] => []
  | [t] => [dna [TDom "h" (h_at n) Dot; TDom "f" (spf t) Dot]]
  | _ => [dna [TDom "h" (h_at n) Dot]]
  end.

Definition flux_cost (P : list sp) : nat :=
  match P with [] => 0 | _ => 1 end.

Definition rgate_core (fr mr sr : domain) (L : list jn) (fl : list cplx) : cplx :=
  dna [TSplice "n" (map reactg1 L); TBreak; TDom "mr" mr Open;
       TDom "sr" sr Open; TSplice "fl" fl; TBreak; TStar "sr" sr Close;
       TStar "mr" mr Close; TSplice "m" (rev (map reactg2 L));
       TStar "fr" fr Dot].

Definition rgate_release (L : list jn) : cplx :=
  dna [TSplice "l" (map reactg3 L)].

Definition r0_core (f m s : domain) (fl : list cplx) : cplx :=
  dna [TDom "mr" m Open; TDom "sr" s Open; TSplice "fl" fl; TBreak;
       TStar "sr" s Close; TStar "mr" m Close; TStar "fr" f Dot].

Definition r0_fuel (f m s : domain) : cplx :=
  dna [TDom "f" f Dot; TDom "m" m Dot; TDom "s" s Dot].

Definition pgate_top (sa hx : domain) (t : sp) (H : list (domain * sp)) : cplx :=
  dna [TDom "hx" hx Open; TDom "fx" (spf t) Open; TDom "mx" (spm t) Dot;
       TDom "sx" (sps t) Dot; TBreak; TSplice "n" (map prodg1 H); TBreak;
       TSplice "m" (rev (map prodg2 H));
       TStar "fx" (spf t) Close; TStar "hx" hx Close; TStar "sa" sa Dot].

Definition pgate_helper (t : sp) (H : list (domain * sp)) : cplx :=
  dna [TDom "fx" (spf t) Dot; TSplice "help" (map prodg3 H)].

Definition p1_top (sa hx : domain) (t : sp) : cplx :=
  dna [TDom "hx" hx Open; TDom "fx" (spf t) Open; TDom "mx" (spm t) Dot;
       TDom "sx" (sps t) Dot; TBreak;
       TStar "fx" (spf t) Close; TStar "hx" hx Close; TStar "sa" sa Dot].

(** The reactant side of a reaction evaluated at counter [n], and the
    counter after it. *)
Definition react_at (n : nat) (R P : list sp) : list cplx :=
  match R with
  | [] =>
      [ r0_core (mkDomain n Short [] false) (mkDomain (n + 1) Long [] false)
                (mkDomain (n + 2) Short [] false) (flux_at (n + 3) P);
        r0_fuel (mkDomain n Short [] false) (mkDomain (n + 1) Long [] false)
                (mkDomain (n + 2) Short [] false) ]
  | a :: _ =>
      [ rgate_core (spf a) (spm (last R a)) (sps (last R a)) (links R)
                   (flux_at n P);
        rgate_release (links R) ]
  end.

Definition react_end (n : nat) (R P : list sp) : nat :=
  match R with
  | [] => n + 3 + flux_cost P
  | _ => n + flux_cost P
  end.

(** The toehold [sa] of the product gate: the [s] of the last element of
    its anchor operand. *)
Definition anchor_s (n : nat) (R : list sp) : domain :=
  match R with
  | [] => mkDomain (n + 2) Short [] false
  | a :: _ => sps (last R a)
  end.

(** The flux handle [h] of the reaction: the domain [flux] allocates. *)
Definition handle (n : nat) (R : list sp) : domain :=
  match R with
  | [] => h_at (n + 3)
  | _ => h_at n
  end.

(** The product side, evaluated at the counter the reactant side left. *)
Definition produce_at (n : nat) (R P : list sp) : list cplx :=
  match P with
  | [] => []
  | [t] => [p1_top (anchor_s n R) (handle n R) t]
  | t :: P' =>
      [ pgate_top (anchor_s n R) (handle n R) t
                  (with_history (react_end n R P) P');
        pgate_helper t (with_history (react_end n R P) P') ]
  end.

Definition produce_end (n : nat) (R P : list sp) : nat :=
  match P with
  | [] | [_] => react_end n R P
  | _ :: P' => react_end n R P + List.length P'
  end.

(** The solution of one reaction compiled at counter [n]. *)
Definition rxn_at (n : nat) (R P : list sp) : solution :=
  sum (map infty (react_at n R P ++ produce_at n R P)%list).

(** The irreversible instances of a network of reactions between formal
    species, in the order in which they are compiled. *)
Definition instances (l : list (list sp * list sp * bool))
  : list (list sp * list sp) :=
  flat_map (fun r : list sp * list sp * bool =>
    if snd r then [(fst (fst r), snd (fst r)); (snd (fst r), fst (fst r))]
    else [fst r]) l.

(** The solutions of a list of irreversible reactions compiled one after
    the other from counter [n] on. *)
Fixpoint rxns_at (n : nat) (l : list (list sp * list sp)) : list solution :=
  match l with
  | [] => []
  | x :: l' =>
      rxn_at n (fst x) (snd x) :: rxns_at (produce_end n (fst x) (snd x)) l'
  end.

Fixpoint rxns_end (n : nat) (l : list (list sp * list sp)) : nat :=
  match l with
  | [] => n
  | x :: l' => rxns_end (produce_end n (fst x) (snd x)) l'
  end.

(** The three domains [formal] allocates at counter [n], and the species
    of the examples: the first three that a fresh allocator yields. *)
Definition formal_at (n : nat) : sp :=
  (mkDomain n Short [("top", "WHHHHW"); ("bottom", "WDDDDW")] false,
   mkDomain (n + 1) Long [("len", "2")] false,
   mkDomain (n + 2) Short [] false).

Definition spA : sp := formal_at 0.
Definition spB : sp := formal_at 3.
Definition spC : sp := formal_at 6.

(** The [j]-th complexes of a list of groups, as [flip] collects them. *)
Definition column (j : nat) (gs : list (list cplx)) : list cplx :=
  flat_map (fun g => match nth_error g j with Some c => [c] | None => [] end) gs.

(** The domains that the junction strands open, in the order in which they
    are opened, and those that the [prodg] strands open. *)
Definition link_domains (L : list jn) : list domain :=
  flat_map (fun x => [jmb x; jsb x; jfa x]) L.

Definition history_domains (H : list (domain * sp)) : list domain :=
  flat_map (fun x => [fst x; spf (snd x)]) H.

(** A complex of unpaired domains on one strand. *)
Definition dotted (c : cplx) : Prop :=
  exists ds, sequence c = map Dom ds /\ structure c = map (fun _ => Dot) ds.

(** The domains that compiling one reaction at counter [n] allocates, in
    the order of their allocation, and those of a list of reactions. *)
Definition issued (n : nat) (R P : list sp) : list domain :=
  (match R with
   | [] => [mkDomain n Short [] false; mkDomain (n + 1) Long [] false;
            mkDomain (n + 2) Short [] false]
   | _ => []
   end
   ++ match P with [] => [] | _ => [handle n R] end
   ++ map fst (with_history (react_end n R P) (tl P)))%list.

Fixpoint issued_all (n : nat) (l : list (list sp * list sp)) : list domain :=
  match l with
  | [] => []
  | x :: l' =>
      (issued n (fst x) (snd x)
       ++ issued_all (produce_end n (fst x) (snd x)) l')%list
  end.

Definition instance_domains (l : list (list sp * list sp)) : list domain :=
  flat_map (fun x => (species_domains (fst x) ++ species_domains (snd x))%list) l.

(** Membership of the domains of a sequence, and of the operands of a DNA
    expression, in a list of unstarred domains. *)
Definition item_in (U : list domain) (i : item) : Prop :=
  match i with Dom d => In (base d) U | Break => True end.

Definition cplx_in (U : list domain) (c : cplx) : Prop :=
  Forall (item_in U) (sequence c).

Definition tok_in (U : list domain) (t : tok) : Prop :=
  match t with
  | TDom _ d _ => In (base d) U
  | TStar _ d _ => In (base d) U
  | TBreak => True
  | TSplice _ l => Forall (cplx_in U) l
  end.

(** [U] holds the domains of the species of a reaction and those that
    compiling it at counter [n] allocates. *)
Definition covers (U : list domain) (n : nat) (R P : list sp) : Prop :=
  (forall d, In d (species_domains R) -> In (base d) U)
  /\ (forall d, In d (species_domains P) -> In (base d) U)
  /\ (forall d, In d (issued n R P) -> In (base d) U).

(** The domains of the flux of a product list at counter [n]. *)
Definition flux_domains (n : nat) (P : list sp) : list domain :=
  match P with
  | [] => []
  | [t] => [h_at n; spf t]
  | _ => [h_at n]
  end.

(** The species that [k] consecutive calls of [formal] build from counter
    [n] on. *)
Fixpoint species_from (n k : nat) : list sp :=
  match k with
  | 0 => []
  | S k' => formal_at n :: species_from (n + 3) k'
  end.

(** The number of domains that compiling a reaction, and a network,
    allocates. *)
Definition rxn_cost (R P : list sp) : nat :=
  match R with [] => 3 | _ => 0 end + List.length P.

Definition crn_cost (l : list (list sp * list sp * bool)) : nat :=
  list_sum (map (fun r : list sp * list sp * bool =>
                   rxn_cost (fst (fst r)) (snd (fst r))
                   + (if snd r then rxn_cost (snd (fst r)) (fst (fst r))
                      else 0)) l).

(** A chemical reaction network between formal species. *)
Definition crn_of (l : list (list sp * list sp * bool)) : list reaction :=
  map (fun r => rx (fst (fst r)) (snd (fst r)) (snd r)) l.

End Shape.
Export Shape.

(** ** Evaluation lemmas *)

Section Evaluation.

Local Open Scope string_scope.

Lemma args_eqb_refl (a : list (string * string)) : args_eqb a a = true.
Proof.
  induction a as [|[x y] a IH]; simpl; auto.
  unfold arg_eqb; simpl. now rewrite !String.eqb_refl, IH.
Qed.

Lemma domain_eqb_refl (d : domain) : domain_eqb d d = true.
Proof.
  unfold domain_eqb.
  rewrite Nat.eqb_refl, args_eqb_refl, Bool.eqb_reflx.
  now destruct (dkind d).
Qed.

Lemma args_eqb_eq (a b : list (string * string)) : args_eqb a b = true -> a = b.
Proof.
  revert b; induction a as [|[x y] a IH]; intros [|[x' y'] b]; simpl; try easy.
  unfold arg_eqb; simpl. intros H.
  apply andb_prop in H as [H1 H2]. apply andb_prop in H1 as [Hx Hy].
  apply String.eqb_eq in Hx, Hy. subst. f_equal. now apply IH.
Qed.

Lemma domain_eqb_eq (d e : domain) : domain_eqb d e = true -> d = e.
Proof.
  destruct d as [n k a s], e as [n' k' a' s']; unfold domain_eqb; simpl.
  intros H.
  apply andb_prop in H as [H Hs]. apply andb_prop in H as [H Ha].
  apply andb_prop in H as [Hn Hk].
  apply Nat.eqb_eq in Hn. apply args_eqb_eq in Ha. apply Bool.eqb_prop in Hs.
  subst. f_equal. now destruct k, k'.
Qed.

Lemma comp_involutive (d : domain) : comp (comp d) = d.
Proof. destruct d as [n k a s]; unfold comp; simpl. now rewrite negb_involutive. Qed.

Lemma omap_column {A B} (row : A -> list B) (sel : A -> B) (j : Z) (l : list A) :
  (forall x, idx (row x) j = Some (sel x)) ->
  omap (fun r => idx r j) (map row l) = Some (map sel l).
Proof.
  intros H. induction l as [|x l IH]; simpl; [reflexivity|].
  now rewrite H, IH.
Qed.

Lemma flip_rows {A B} (a b c : A -> B) (l : list A) :
  flip (map (fun x => [a x; b x; c x]) l) 3 = Some [map a l; map b l; map c l].
Proof.
  unfold flip. change (range 3) with (Some [0; 1; 2]%Z). simpl.
  rewrite (omap_column (fun x => [a x; b x; c x]) a 0 l) by reflexivity.
  rewrite (omap_column (fun x => [a x; b x; c x]) b 1 l) by reflexivity.
  rewrite (omap_column (fun x => [a x; b x; c x]) c 2 l) by reflexivity.
  reflexivity.
Qed.

Lemma idx_of_nat {A} (l : list A) (i : nat) : idx l (Z.of_nat i) = nth_error l i.
Proof.
  unfold idx. destruct (Z.ltb_spec (Z.of_nat i) 0); [lia|].
  now rewrite Nat2Z.id.
Qed.

Lemma idx_last {A} (l : list A) (d : A) :
  l <> [] -> idx l (len l - 1) = Some (last l d).
Proof.
  intros Hl. unfold len.
  replace (Z.of_nat (List.length l) - 1)%Z with (Z.of_nat (List.length l - 1)).
  2:{ destruct l; [congruence|simpl List.length; lia]. }
  rewrite idx_of_nat.
  induction l as [|a [|b l] IH]; [congruence|reflexivity|].
  specialize (IH ltac:(congruence)).
  simpl List.length in *. rewrite Nat.sub_succ, Nat.sub_0_r in *.
  exact IH.
Qed.

Lemma field_species (R : list sp) (i : nat) :
  field (idx (map species R) (Z.of_nat i)) "f" = option_map spf (nth_error R i)
  /\ field (idx (map species R) (Z.of_nat i)) "m" = option_map spm (nth_error R i)
  /\ field (idx (map species R) (Z.of_nat i)) "s" = option_map sps (nth_error R i).
Proof.
  rewrite idx_of_nat, nth_error_map.
  destruct (nth_error R i); simpl; auto.
Qed.

Lemma field_species_last (R : list sp) (d : sp) :
  R <> [] ->
  field (idx (map species R) (len (map species R) - 1)) "m" = Some (spm (last R d))
  /\ field (idx (map species R) (len (map species R) - 1)) "s" = Some (sps (last R d)).
Proof.
  intros HR.
  rewrite (idx_last (l := map species R) (species d))
    by (destruct R; simpl; congruence).
  replace (last (map species R) (species d)) with (species (last R d)).
  2:{ clear HR. induction R as [|a [|b R] IH]; try reflexivity.
      exact IH. }
  split; reflexivity.
Qed.

Lemma prodg_run (t : sp) (n : nat) :
  prodg (species t) n = Some (prodg_row (hy_at n, t), S n).
Proof. reflexivity. Qed.

Lemma map_prodg_run (P : list sp) (n : nat) :
  map' prodg (map species P) n
  = Some (map prodg_row (with_history n P), n + List.length P).
Proof.
  unfold map'. revert n; induction P as [|t P IH]; intros n; simpl.
  - unfold ret. now rewrite Nat.add_0_r.
  - unfold bind at 1. rewrite prodg_run.
    unfold bind at 1. rewrite IH. unfold ret.
    do 2 f_equal. lia.
Qed.

Lemma flux_run (r : list cplx) (P : list sp) (n : nat) :
  flux r (map species P) n = Some ([flux_at n P], n + flux_cost P).
Proof.
  destruct P as [|t [|u P]]; unfold flux.
  - simpl. unfold ret. now rewrite Nat.add_0_r.
  - simpl. unfold bind, long, fresh, lift, ret; simpl. now rewrite Nat.add_1_r.
  - destruct (Z.eqb_spec (len (map species (t :: u :: P))) 0) as [E|_];
      [unfold len in E; simpl List.length in E; lia|].
    destruct (Z.eqb_spec (len (map species (t :: u :: P))) 1) as [E|_];
      [unfold len in E; simpl List.length in E; lia|].
    unfold bind, long, fresh, lift, ret; simpl. now rewrite Nat.add_1_r.
Qed.

Lemma reactg_run (pre R : list sp) (a b : sp) (n : nat) :
  reactg (map species (pre ++ a :: b :: R)) (Z.of_nat (List.length pre)) n
  = Some (reactg_row (spm a, sps a, spf b), n).
Proof.
  unfold reactg.
  replace (Z.of_nat (List.length pre) + 1)%Z
    with (Z.of_nat (S (List.length pre))) by lia.
  destruct (field_species (pre ++ a :: b :: R) (List.length pre)) as (_ & Hm & Hs).
  destruct (field_species (pre ++ a :: b :: R) (S (List.length pre))) as (Hf & _).
  rewrite Hm, Hs, Hf.
  rewrite nth_error_app2, Nat.sub_diag by lia.
  replace (pre ++ a :: b :: R)%list with ((pre ++ [a]) ++ b :: R)%list
    by (now rewrite <- app_assoc).
  rewrite nth_error_app2 by (rewrite length_app; cbn [List.length]; lia).
  replace (S (List.length pre) - List.length (pre ++ [a])) with 0
    by (rewrite length_app; cbn [List.length]; lia).
  reflexivity.
Qed.

Lemma map_reactg_run (pre R : list sp) (n : nat) :
  mapM (reactg (map species (pre ++ R)))
       (map Z.of_nat (seq (List.length pre) (List.length R - 1))) n
  = Some (map reactg_row (links R), n).
Proof.
  revert pre; induction R as [|a [|b R] IH]; intros pre; try reflexivity.
  replace (List.length (a :: b :: R) - 1) with (S (List.length (b :: R) - 1))
    by (cbn [List.length]; lia).
  cbn [seq map mapM]. unfold bind at 1. rewrite reactg_run.
  unfold bind at 1.
  specialize (IH (pre ++ [a])%list).
  rewrite <- app_assoc, length_app, Nat.add_1_r in IH. cbn [app] in IH.
  rewrite IH. reflexivity.
Qed.

Lemma junctions_run (R : list sp) (n : nat) :
  R <> [] ->
  junctions (map species R) n = Some (map reactg_row (links R), n).
Proof.
  intros HR. unfold junctions, map2, bind, lift, range.
  assert (E : (len (map species R) - 1)%Z = Z.of_nat (List.length R - 1)).
  { unfold len. rewrite length_map.
    destruct R; [congruence|cbn [List.length]; lia]. }
  rewrite E. destruct (Z.ltb_spec (Z.of_nat (List.length R - 1)) 0); [lia|].
  rewrite Nat2Z.id. exact (map_reactg_run [] R n).
Qed.

Lemma links_length (R : list sp) : List.length (links R) = List.length R - 1.
Proof.
  induction R as [|a [|b R] IH]; try reflexivity.
  change (S (List.length (links (b :: R))) = List.length (a :: b :: R) - 1).
  rewrite IH. cbn [List.length]. lia.
Qed.

Lemma links_nth (R : list sp) (i : nat) (a b : sp) :
  nth_error R i = Some a -> nth_error R (S i) = Some b ->
  nth_error (links R) i = Some (spm a, sps a, spf b).
Proof.
  revert i; induction R as [|x [|y R] IH]; intros i Ha Hb.
  - destruct i; discriminate.
  - destruct i; simpl in Hb; [discriminate | destruct i; discriminate].
  - destruct i as [|i].
    + simpl in Ha, Hb. now inversion Ha; inversion Hb; subst.
    + change (nth_error (links (y :: R)) i = Some (spm a, sps a, spf b)).
      apply IH; assumption.
Qed.

Lemma srinivas_rgate_run (a : sp) (R P : list sp) (n : nat) :
  srinivas_rgate (map species (a :: R)) (map species P) n
  = Some (react_at n (a :: R) P, react_end n (a :: R) P).
Proof.
  unfold srinivas_rgate.
  destruct (field_species_last (R := a :: R) a ltac:(congruence)) as [Hm Hs].
  unfold bind at 1. change (lift _ n) with (Some (spf a, n)).
  unfold bind at 1. rewrite Hm. unfold lift at 1.
  unfold bind at 1. rewrite Hs. unfold lift at 1.
  unfold bind at 1. unfold bind at 1. rewrite flux_run. unfold lift at 1, single.
  unfold bind at 1. unfold bind at 1.
  rewrite junctions_run by congruence.
  unfold lift at 1, reactg_row. rewrite flip_rows. reflexivity.
Qed.

Lemma srinivas_rgate_r0_run (r : list cplx) (P : list sp) (n : nat) :
  srinivas_rgate_r0 r (map species P) n
  = Some (react_at n [] P, react_end n [] P).
Proof.
  unfold srinivas_rgate_r0.
  unfold bind at 1. unfold short at 1, fresh at 1.
  unfold bind at 1. unfold long at 1, fresh at 1.
  unfold bind at 1. unfold short at 1, fresh at 1.
  unfold bind at 1. unfold bind at 1. rewrite flux_run.
  unfold lift, single, ret, react_at, react_end.
  replace (n + 1) with (S n) by lia.
  replace (n + 2) with (S (S n)) by lia.
  replace (n + 3) with (S (S (S n))) by lia.
  reflexivity.
Qed.

Lemma react_of_run (R P : list sp) (rev : bool) (n : nat) :
  react_of (rx R P rev) n = Some (react_at n R P, react_end n R P).
Proof.
  unfold react_of, rx; cbn [reactants products].
  destruct R as [|a R].
  - apply srinivas_rgate_r0_run.
  - destruct (Z.eqb_spec (len (map species (a :: R))) 0) as [E|_];
      [unfold len in E; simpl List.length in E; lia|].
    apply srinivas_rgate_run.
Qed.

Lemma hist_of_react (R P : list sp) (n : nat) :
  hist_of (react_at n R P)
  = match P with [] => None | _ => Some (handle n R) end.
Proof. destruct R as [|a R], P as [|t [|u P]]; reflexivity. Qed.

Lemma anchor_react (P : list sp) (n : nat) :
  field (idx (react_at n [] P) (len (react_at n [] P) - 1)) "s"
  = Some (anchor_s n []).
Proof. reflexivity. Qed.

Lemma anchor_reactants (a : sp) (R : list sp) (n : nat) :
  field (idx (map species (a :: R)) (len (map species (a :: R)) - 1)) "s"
  = Some (anchor_s n (a :: R)).
Proof. now destruct (field_species_last (R := a :: R) a ltac:(congruence)). Qed.

Lemma srinivas_pgate_run (r : list cplx) (sa hx : domain) (t : sp)
      (P : list sp) (n : nat) :
  field (idx r (len r - 1)) "s" = Some sa ->
  srinivas_pgate r (map species (t :: P)) hx n
  = Some ([pgate_top sa hx t (with_history n P);
           pgate_helper t (with_history n P)], n + List.length P).
Proof.
  intros Hsa. unfold srinivas_pgate.
  unfold bind at 1. rewrite Hsa. unfold lift at 1.
  unfold bind at 1. change (lift _ n) with (Some (spf t, n)).
  unfold bind at 1. change (lift _ n) with (Some (spm t, n)).
  unfold bind at 1. change (lift _ n) with (Some (sps t, n)).
  unfold bind at 1. unfold bind at 1.
  change (tail (map species (t :: P))) with (map species P).
  rewrite map_prodg_run. unfold lift at 1, prodg_row. rewrite flip_rows.
  reflexivity.
Qed.

Lemma srinivas_pgate_p1_run (r : list cplx) (sa hx : domain) (t : sp)
      (P : list sp) (n : nat) :
  field (idx r (len r - 1)) "s" = Some sa ->
  srinivas_pgate_p1 r (map species (t :: P)) hx n = Some ([p1_top sa hx t], n).
Proof.
  intros Hsa. unfold srinivas_pgate_p1.
  unfold bind at 1. rewrite Hsa. reflexivity.
Qed.

Lemma len_cons2 {A} (a b : A) (l : list A) :
  (len (a :: b :: l) =? 0)%Z = false /\ (len (a :: b :: l) =? 1)%Z = false.
Proof.
  unfold len; cbn [List.length]. split; apply Z.eqb_neq; lia.
Qed.

Lemma len_cons {A} (a : A) (l : list A) : (len (a :: l) =? 0)%Z = false.
Proof. unfold len; cbn [List.length]. apply Z.eqb_neq; lia. Qed.

Lemma produce_of_run (R P : list sp) (rev : bool) (n : nat) :
  produce_of (rx R P rev) (react_at n R P) (react_end n R P)
  = Some (produce_at n R P, produce_end n R P).
Proof.
  unfold produce_of, rx; cbn [reactants products].
  destruct P as [|t [|u P]].
  - reflexivity.
  - change (len (map species [t]) =? 0)%Z with false.
    change (len (map species [t]) =? 1)%Z with true. cbv iota.
    destruct R as [|a R].
    + change (len (map species []) =? 0)%Z with true. cbv iota.
      unfold bind. rewrite hist_of_react. unfold lift at 1.
      rewrite (srinivas_pgate_p1_run _ (sa := anchor_s n []));
        [reflexivity | apply anchor_react].
    + change (map species (a :: R)) with (species a :: map species R).
      rewrite (len_cons (species a) (map species R)).
      change (species a :: map species R) with (map species (a :: R)).
      unfold bind. rewrite hist_of_react. unfold lift at 1.
      rewrite (srinivas_pgate_p1_run _ (sa := anchor_s n (a :: R)));
        [reflexivity | apply anchor_reactants].
  - destruct (len_cons2 (species t) (species u) (map species P)) as [E0 E1].
    change (map species (t :: u :: P))
      with (species t :: species u :: map species P).
    rewrite E0, E1.
    change (species t :: species u :: map species P)
      with (map species (t :: u :: P)).
    destruct R as [|a R].
    + change (len (map species []) =? 0)%Z with true. cbv iota.
      unfold bind. rewrite hist_of_react. unfold lift at 1.
      rewrite (srinivas_pgate_run _ (sa := anchor_s n []));
        [reflexivity | apply anchor_react].
    + change (map species (a :: R)) with (species a :: map species R).
      rewrite (len_cons (species a) (map species R)).
      change (species a :: map species R) with (map species (a :: R)).
      unfold bind. rewrite hist_of_react. unfold lift at 1.
      rewrite (srinivas_pgate_run _ (sa := anchor_s n (a :: R)));
        [reflexivity | apply anchor_reactants].
Qed.

Lemma rxn_run (R P : list sp) (rev : bool) (n : nat) :
  rxn (rx R P rev) n = Some (rxn_at n R P, produce_end n R P).
Proof.
  unfold rxn, bind. rewrite react_of_run, produce_of_run. reflexivity.
Qed.

Lemma irrev_instances (l : list (list sp * list sp * bool)) :
  irrev_reactions (crn_of l)
  = map (fun x => rx (fst x) (snd x) false) (instances l).
Proof.
  unfold irrev_reactions, crn_of, instances.
  induction l as [|[[R P] [|]] l IH]; simpl; [reflexivity| |];
    now rewrite <- IH.
Qed.

Lemma map_rxn_run (l : list (list sp * list sp)) (n : nat) :
  map' rxn (map (fun x => rx (fst x) (snd x) false) l) n
  = Some (rxns_at n l, rxns_end n l).
Proof.
  unfold map'. revert n; induction l as [|[R P] l IH]; intros n;
    [reflexivity|].
  cbn [map mapM fst snd]. unfold bind at 1. rewrite rxn_run.
  unfold bind at 1. rewrite IH. reflexivity.
Qed.

Lemma main_run (l : list (list sp * list sp * bool)) (n : nat) :
  main (crn_of l) n
  = Some (sum (rxns_at n (instances l)), rxns_end n (instances l)).
Proof.
  unfold main. rewrite irrev_instances.
  unfold bind. now rewrite map_rxn_run.
Qed.

End Evaluation.

(** ** Pairing of the complexes the builders return *)

Section Pairing.

Local Open Scope string_scope.

Lemma check_close (d : domain) (s : list item) (t : list pchar)
      (st : list domain) :
  check (Dom (comp d) :: s) (Close :: t) (d :: st) = check s t st.
Proof. cbn [check]. now rewrite domain_eqb_refl. Qed.

Lemma check_dotted (X : list cplx) (s : list item) (t : list pchar)
      (st : list domain) :
  Forall dotted X ->
  check (flat_map sequence X ++ s) (flat_map structure X ++ t) st = check s t st.
Proof.
  induction 1 as [|c X (ds & Hs & Ht) _ IH]; [reflexivity|].
  cbn [flat_map]. rewrite Hs, Ht, <- !app_assoc.
  clear Hs Ht. induction ds as [|d ds IHd]; [exact IH|exact IHd].
Qed.

Lemma check_reactg1 (L : list jn) (s : list item) (t : list pchar)
      (st : list domain) :
  check (flat_map sequence (map reactg1 L) ++ s)
        (flat_map structure (map reactg1 L) ++ t) st
  = check s t (rev (link_domains L) ++ st).
Proof.
  revert st; induction L as [|x L IH]; intros st; [reflexivity|].
  cbn [map flat_map link_domains].
  change (check (Dom (jmb x) :: Dom (jsb x) :: Dom (jfa x) :: Break
                 :: (flat_map sequence (map reactg1 L) ++ s))
                (Open :: Open :: Open :: Plus
                 :: (flat_map structure (map reactg1 L) ++ t)) st
          = check s t (rev ([jmb x; jsb x; jfa x] ++ link_domains L) ++ st)).
  cbn [check]. rewrite IH, rev_app_distr, <- app_assoc. reflexivity.
Qed.

Lemma check_reactg2 (L : list jn) (s : list item) (t : list pchar)
      (st : list domain) :
  check (flat_map sequence (rev (map reactg2 L)) ++ s)
        (flat_map structure (rev (map reactg2 L)) ++ t)
        (rev (link_domains L) ++ st)
  = check s t st.
Proof.
  revert s t st; induction L as [|x L IH]; intros s t st; [reflexivity|].
  cbn [map rev]. rewrite !flat_map_app, <- !app_assoc.
  change (link_domains (x :: L))
    with ([jmb x; jsb x; jfa x] ++ link_domains L)%list.
  rewrite rev_app_distr, <- app_assoc, IH.
  cbn [flat_map sequence structure reactg2 dna tok_seq tok_str app rev].
  now rewrite !check_close.
Qed.

Lemma check_prodg1 (H : list (domain * sp)) (s : list item) (t : list pchar)
      (st : list domain) :
  check (flat_map sequence (map prodg1 H) ++ s)
        (flat_map structure (map prodg1 H) ++ t) st
  = check s t (rev (history_domains H) ++ st).
Proof.
  revert st; induction H as [|x H IH]; intros st; [reflexivity|].
  cbn [map flat_map history_domains].
  change (check (Dom (fst x) :: Dom (spf (snd x)) :: Dom (spm (snd x))
                 :: Dom (sps (snd x)) :: Break
                 :: (flat_map sequence (map prodg1 H) ++ s))
                (Open :: Open :: Dot :: Dot :: Plus
                 :: (flat_map structure (map prodg1 H) ++ t)) st
          = check s t (rev ([fst x; spf (snd x)] ++ history_domains H) ++ st)).
  cbn [check]. rewrite IH, rev_app_distr, <- app_assoc. reflexivity.
Qed.

Lemma check_prodg2 (H : list (domain * sp)) (s : list item) (t : list pchar)
      (st : list domain) :
  check (flat_map sequence (rev (map prodg2 H)) ++ s)
        (flat_map structure (rev (map prodg2 H)) ++ t)
        (rev (history_domains H) ++ st)
  = check s t st.
Proof.
  revert s t st; induction H as [|x H IH]; intros s t st; [reflexivity|].
  cbn [map rev]. rewrite !flat_map_app, <- !app_assoc.
  change (history_domains (x :: H))
    with ([fst x; spf (snd x)] ++ history_domains H)%list.
  rewrite rev_app_distr, <- app_assoc, IH.
  cbn [flat_map sequence structure prodg2 dna tok_seq tok_str app rev].
  now rewrite !check_close.
Qed.

Lemma dotted_reactg3 (L : list jn) : Forall dotted (map reactg3 L).
Proof.
  apply Forall_forall. intros c Hc. apply in_map_iff in Hc as (x & <- & _).
  now exists [jmb x; jsb x; jfa x].
Qed.

Lemma dotted_prodg3 (H : list (domain * sp)) : Forall dotted (map prodg3 H).
Proof.
  apply Forall_forall. intros c Hc. apply in_map_iff in Hc as (x & <- & _).
  now exists [fst x; spf (snd x)].
Qed.

Lemma dotted_flux (n : nat) (P : list sp) : Forall dotted (flux_at n P).
Proof.
  destruct P as [|t [|u P]]; repeat constructor.
  - now exists [h_at n; spf t].
  - now exists [h_at n].
Qed.

Lemma check_aligned (s : list item) (t : list pchar) (st r : list domain) :
  check s t st = Some r ->
  List.length s = List.length t
  /\ forall k, nth_error s k = Some Break <-> nth_error t k = Some Plus.
Proof.
  revert t st; induction s as [|x s IH]; intros [|p t] st H;
    try (destruct x; discriminate H); try discriminate H.
  - split; [reflexivity|]. intros [|k]; split; discriminate.
  - assert (H' : exists st', check s t st' = Some r
                 /\ (x = Break <-> p = Plus)).
    { destruct x as [d|], p; try discriminate H; cbn [check] in H.
      - exists (d :: st). split; [exact H | split; discriminate].
      - destruct st as [|e st]; [discriminate|].
        destruct (domain_eqb d (comp e)); [|discriminate].
        exists st. split; [exact H | split; discriminate].
      - exists st. split; [exact H | split; discriminate].
      - exists st. split; [exact H | split; reflexivity]. }
    destruct H' as (st' & H' & Hx). destruct (IH _ _ H') as [L B].
    split; [cbn [List.length]; now rewrite L|].
    intros [|k]; cbn [nth_error]; [|apply B].
    split; intros E; injection E as E; f_equal; now apply Hx.
Qed.

Lemma check_pairs (look : nat -> option item) (s : list item)
      (t : list pchar) (i : nat) (st : list domain) (opened : list nat) :
  (forall k, look (i + k) = nth_error s k) ->
  Forall2 (fun d j => look j = Some (Dom d)) st opened ->
  check s t st = Some [] ->
  exists pt,
    pair_table t i opened = Some pt
    /\ forall a b, In (a, b) pt ->
         exists d, look a = Some (Dom d) /\ look b = Some (Dom (comp d)).
Proof.
  revert t i st opened; induction s as [|x s IH]; intros [|p t] i st opened HL HS H;
    try (destruct x; discriminate H); try discriminate H.
  - cbn [check] in H. injection H as ->. inversion HS; subst.
    exists []. split; [reflexivity | intros a b []].
  - assert (HL' : forall k, look (S i + k) = nth_error s k).
    { intros k. replace (S i + k) with (i + S k) by lia. exact (HL (S k)). }
    assert (H0 : look i = Some x).
    { rewrite <- (Nat.add_0_r i). exact (HL 0). }
    destruct x as [d|], p; try discriminate H; cbn [check] in H;
      cbn [pair_table].
    + apply (IH t (S i) (d :: st) (i :: opened) HL'); [|exact H].
      constructor; assumption.
    + destruct st as [|e st]; [discriminate|].
      destruct (domain_eqb d (comp e)) eqn:E; [|discriminate].
      apply domain_eqb_eq in E. subst d.
      inversion HS as [|? j ? opened' Hj HS']; subst.
      destruct (IH t (S i) st opened' HL' HS' H) as (pt & Hpt & Hin).
      rewrite Hpt. exists ((j, i) :: pt). split; [reflexivity|].
      intros a b [Eab | Hab]; [|now apply Hin].
      injection Eab as <- <-. exists e. now split.
    + exact (IH t (S i) st opened HL' HS H).
    + exact (IH t (S i) st opened HL' HS H).
Qed.

Lemma well_formed_pairing (c : cplx) : well_formed c = true -> pairing_ok c.
Proof.
  unfold well_formed, pairing_ok. intros H.
  destruct (check (sequence c) (structure c) []) as [[|d r]|] eqn:E;
    try discriminate H.
  destruct (check_aligned _ _ _ E) as [L B].
  split; [exact L|]. split; [exact B|].
  apply (@check_pairs (nth_error (sequence c)) (sequence c) (structure c) 0 [] []);
    [reflexivity | constructor | exact E].
Qed.

Ltac step_check :=
  repeat (progress (cbn [check app]; rewrite ?domain_eqb_refl)).

Lemma well_formed_react (n : nat) (R P : list sp) :
  Forall (fun c => well_formed c = true) (react_at n R P).
Proof.
  destruct R as [|a R]; cbn [react_at]; repeat constructor.
  - unfold well_formed, r0_core, dna.
    cbn [sequence structure flat_map tok_seq tok_str]. step_check.
    rewrite (check_dotted _ _ _ (dotted_flux (n + 3) P)).
    now step_check.
  - unfold well_formed, rgate_core, dna.
    cbn [sequence structure flat_map tok_seq tok_str].
    rewrite check_reactg1. step_check.
    rewrite (check_dotted _ _ _ (dotted_flux n P)).
    step_check. rewrite check_reactg2. now step_check.
  - unfold well_formed, rgate_release, dna.
    cbn [sequence structure flat_map tok_seq tok_str].
    now rewrite (check_dotted _ _ _ (dotted_reactg3 (links (a :: R)))).
Qed.

Lemma well_formed_produce (n : nat) (R P : list sp) :
  Forall (fun c => well_formed c = true) (produce_at n R P).
Proof.
  destruct P as [|t [|u P]]; cbn [produce_at]; repeat constructor.
  - unfold well_formed, p1_top, dna.
    cbn [sequence structure flat_map tok_seq tok_str]. now step_check.
  - unfold well_formed, pgate_top, dna.
    cbn [sequence structure flat_map tok_seq tok_str]. step_check.
    rewrite check_prodg1. step_check.
    rewrite check_prodg2. now step_check.
  - unfold well_formed, pgate_helper, dna.
    cbn [sequence structure flat_map tok_seq tok_str]. step_check.
    now rewrite (check_dotted _ _ _ (dotted_prodg3 _)).
Qed.

End Pairing.

(** ** The domains of the complexes the builders return *)

Section Names.

Local Open Scope string_scope.

Variable U : list domain.

Lemma dna_in (ts : list tok) : Forall (tok_in U) ts -> cplx_in U (dna ts).
Proof.
  unfold cplx_in, dna; cbn [sequence].
  induction 1 as [|t ts Ht _ IH]; [constructor|].
  cbn [flat_map]. apply Forall_app; split; [|exact IH].
  destruct t as [x d p|x d p| |x l]; cbn [tok_seq tok_in] in *.
  - now repeat constructor.
  - now repeat constructor.
  - now repeat constructor.
  - apply Forall_flat_map. exact Ht.
Qed.

Lemma links_in (R : list sp) (x : jn) :
  In x (links R) ->
  exists a b, In a R /\ In b R /\ x = (spm a, sps a, spf b).
Proof.
  induction R as [|a [|b R] IH]; [intros []|intros []|].
  change (links (a :: b :: R))
    with ((spm a, sps a, spf b) :: links (b :: R)).
  intros [<- | H].
  - exists a, b. repeat split; simpl; auto.
  - destruct (IH H) as (a' & b' & Ha & Hb & ->).
    exists a', b'. repeat split; now right.
Qed.

Lemma last_in (a d : sp) (R : list sp) : In (last (a :: R) d) (a :: R).
Proof.
  revert a; induction R as [|b R IH]; intros a; [now left|].
  right. exact (IH b).
Qed.

Lemma species_in (R : list sp) (t : sp) :
  In t R ->
  In (spf t) (species_domains R) /\ In (spm t) (species_domains R)
  /\ In (sps t) (species_domains R).
Proof.
  intros H. unfold species_domains.
  repeat split; apply in_flat_map; exists t; simpl; auto.
Qed.

Lemma with_history_in (P : list sp) (n : nat) (x : domain * sp) :
  In x (with_history n P) ->
  In (fst x) (map fst (with_history n P)) /\ In (snd x) P.
Proof.
  intros H. split; [now apply in_map|].
  revert n H; induction P as [|t P IH]; intros n; [intros []|].
  intros [<- | H]; [now left | right; eauto].
Qed.

Ltac split_forall :=
  repeat match goal with
         | |- Forall _ (_ :: _) => constructor
         | |- Forall _ [] => constructor
         end.

Ltac in_dna := apply dna_in; split_forall; cbn [tok_in].

Lemma known_handle (n : nat) (R P : list sp) :
  covers U n R P -> P <> [] -> In (base (handle n R)) U.
Proof.
  intros (_ & _ & HI) HP. apply HI. unfold issued.
  apply in_or_app; right. apply in_or_app; left.
  destruct P; [congruence | now left].
Qed.

Lemma known_fuel (n : nat) (P : list sp) :
  covers U n [] P ->
  In (base (mkDomain n Short [] false)) U
  /\ In (base (mkDomain (n + 1) Long [] false)) U
  /\ In (base (mkDomain (n + 2) Short [] false)) U.
Proof.
  intros (_ & _ & HI). repeat split; apply HI; unfold issued; simpl; auto.
Qed.

Lemma known_history (n : nat) (R : list sp) (t : sp) (P : list sp)
      (x : domain * sp) :
  covers U n R (t :: P) ->
  In x (with_history (react_end n R (t :: P)) P) ->
  In (base (fst x)) U /\ In (base (spf (snd x))) U
  /\ In (base (spm (snd x))) U /\ In (base (sps (snd x))) U.
Proof.
  intros (_ & HP & HI) Hx.
  destruct (with_history_in _ _ _ Hx) as [H1 H2].
  split.
  - apply HI. unfold issued. apply in_or_app; right.
    apply in_or_app; right. exact H1.
  - destruct (species_in (t :: P) (snd x) (or_intror H2)) as (Hf & Hm & Hs).
    auto.
Qed.

Lemma flux_in (n m : nat) (R P : list sp) :
  covers U n R P -> h_at m = handle n R -> Forall (cplx_in U) (flux_at m P).
Proof.
  intros HC E. pose proof (known_handle HC) as Hh.
  destruct HC as (_ & HP & _).
  destruct P as [|t [|u P']]; cbn [flux_at]; split_forall; in_dna;
    try (rewrite E; apply Hh; congruence).
  apply HP. simpl; auto.
Qed.

Lemma react_in (n : nat) (R P : list sp) :
  covers U n R P -> Forall (cplx_in U) (react_at n R P).
Proof.
  intros HC. destruct R as [|a R].
  - destruct (known_fuel HC) as (Hf & Hm & Hs).
    pose proof (flux_in (m := n + 3) HC eq_refl) as Hfl.
    cbn [react_at]; split_forall; in_dna; auto.
  - pose proof (flux_in (m := n) HC eq_refl) as Hfl.
    destruct HC as (HR & _ & _).
    assert (HL : forall x, In x (links (a :: R)) ->
              In (base (jmb x)) U /\ In (base (jsb x)) U /\ In (base (jfa x)) U).
    { intros x Hx. destruct (links_in _ _ Hx) as (u & v & Hu & Hv & ->).
      destruct (species_in _ _ Hu) as (_ & Hm & Hs).
      destruct (species_in _ _ Hv) as (Hf & _ & _).
      cbn [jmb jsb jfa fst snd]. auto. }
    destruct (species_in _ _ (last_in a a R)) as (_ & Hm & Hs).
    destruct (species_in (a :: R) a (or_introl eq_refl)) as (Hf & _ & _).
    cbn [react_at]; split_forall; in_dna; auto;
      try apply Forall_rev; apply Forall_forall; intros c Hc;
      apply in_map_iff in Hc as (x & <- & Hx);
      destruct (HL x Hx) as (H1 & H2 & H3);
      in_dna; auto.
Qed.

Lemma known_anchor (n : nat) (R P : list sp) :
  covers U n R P -> In (base (anchor_s n R)) U.
Proof.
  intros HC. destruct R as [|a R]; cbn [anchor_s].
  - now destruct (known_fuel HC) as (_ & _ & Hs).
  - destruct HC as (HR & _ & _).
    destruct (species_in _ _ (last_in a a R)) as (_ & _ & Hs). auto.
Qed.

Lemma produce_in (n : nat) (R P : list sp) :
  covers U n R P -> Forall (cplx_in U) (produce_at n R P).
Proof.
  intros HC. pose proof (known_anchor HC) as Ha.
  pose proof (known_handle HC) as Hh.
  destruct P as [|t P]; [constructor|].
  specialize (Hh ltac:(congruence)).
  pose proof (fun x => @known_history n R t P x HC) as HH.
  destruct HC as (_ & HP & _).
  destruct (species_in (t :: P) t (or_introl eq_refl)) as (Hf & Hm & Hs).
  destruct P as [|u P];
    cbn [produce_at]; split_forall; in_dna; auto;
      try apply Forall_rev; apply Forall_forall; intros c Hc;
      apply in_map_iff in Hc as (x & <- & Hx);
      destruct (HH x Hx) as (H1 & H2 & H3 & H4);
      in_dna; auto.
Qed.

Lemma rxn_in (n : nat) (R P : list sp) (x : member) :
  covers U n R P -> In x (rxn_at n R P) -> cplx_in U (m_cplx x).
Proof.
  intros HC Hx. unfold rxn_at in Hx.
  assert (E : forall l, sum (map infty l) = map (fun c => mkMember c true) l).
  { induction l as [|c [|c' l] IH]; try reflexivity.
    change (infty c ++ sum (map infty (c' :: l))
            = mkMember c true :: map (fun c => mkMember c true) (c' :: l))%list.
    now rewrite IH. }
  rewrite E in Hx. apply in_map_iff in Hx as (c & <- & Hc).
  cbn [m_cplx]. apply in_app_or in Hc as [Hc | Hc].
  - exact (proj1 (Forall_forall _ _) (react_in HC) c Hc).
  - exact (proj1 (Forall_forall _ _) (produce_in HC) c Hc).
Qed.

Lemma rxns_in (l : list (list sp * list sp)) (n : nat) (s : solution)
      (x : member) :
  (forall d, In d (instance_domains l) -> In (base d) U) ->
  (forall d, In d (issued_all n l) -> In (base d) U) ->
  In s (rxns_at n l) -> In x s -> cplx_in U (m_cplx x).
Proof.
  revert n; induction l as [|[R P] l IH]; intros n HD HI Hs Hx; [destruct Hs|].
  cbn [rxns_at fst snd] in Hs. cbn [issued_all fst snd] in HI.
  unfold instance_domains in HD. cbn [flat_map fst snd] in HD.
  destruct Hs as [<- | Hs].
  - apply (@rxn_in n R P); [|exact Hx].
    split; [|split]; intros d Hd.
    + apply HD. apply in_or_app; left. apply in_or_app; now left.
    + apply HD. apply in_or_app; left. apply in_or_app; now right.
    + apply HI. apply in_or_app; now left.
  - apply (IH (produce_end n R P)); auto.
    + intros d Hd. apply HD. apply in_or_app. now right.
    + intros d Hd. apply HI. apply in_or_app. now right.
Qed.

End Names.

Section Allocation.

Lemma with_history_names (P : list sp) (m : nat) :
  map dname (map fst (with_history m P)) = seq m (List.length P)
  /\ Forall (fun d => base d = d) (map fst (with_history m P)).
Proof.
  revert m; induction P as [|t P IH]; intros m; [now split|].
  destruct (IH (S m)) as [E F]. cbn [with_history map List.length seq fst].
  split; [now rewrite E | constructor; [reflexivity | exact F]].
Qed.

Lemma issued_names (n : nat) (R P : list sp) :
  map dname (issued n R P) = seq n (produce_end n R P - n)
  /\ Forall (fun d => base d = d) (issued n R P)
  /\ n <= produce_end n R P.
Proof.
  assert (Hle : n <= produce_end n R P).
  { unfold produce_end, react_end. destruct R, P as [|t [|u P]]; lia. }
  split; [|split; [|exact Hle]].
  - unfold issued. rewrite !map_app.
    destruct (with_history_names (tl P) (react_end n R P)) as [E _].
    rewrite E.
    destruct R as [|a R], P as [|t [|u P]];
      cbn [map handle h_at dname tl List.length seq app produce_end
           react_end flux_cost].
    + replace (n + 3 + 0 - n) with 3 by lia.
      cbn [seq]. repeat (f_equal; try lia).
    + replace (n + 3 + 1 - n) with 4 by lia.
      cbn [seq]. repeat (f_equal; try lia).
    + replace (n + 3 + 1 + S (List.length P) - n)
        with (S (S (S (S (S (List.length P)))))) by lia.
      cbn [seq]. repeat (f_equal; try lia).
    + now replace (n + 0 - n) with 0 by lia.
    + now replace (n + 1 - n) with 1 by lia.
    + replace (n + 1 + S (List.length P) - n)
        with (S (S (List.length P))) by lia.
      cbn [seq]. repeat (f_equal; try lia).
  - unfold issued. rewrite !Forall_app.
    destruct (with_history_names (tl P) (react_end n R P)) as [_ F].
    repeat split; [| |exact F].
    + destruct R; repeat constructor.
    + destruct P; [constructor|]. destruct R; repeat constructor.
Qed.

Lemma issued_all_names (l : list (list sp * list sp)) (n : nat) :
  map dname (issued_all n l) = seq n (rxns_end n l - n)
  /\ Forall (fun d => base d = d) (issued_all n l)
  /\ n <= rxns_end n l.
Proof.
  revert n; induction l as [|[R P] l IH]; intros n.
  - cbn [issued_all rxns_end map]. rewrite Nat.sub_diag. now repeat split.
  - cbn [issued_all rxns_end fst snd].
    destruct (issued_names n R P) as (E1 & F1 & L1).
    destruct (IH (produce_end n R P)) as (E2 & F2 & L2).
    split; [|split; [apply Forall_app; now split | lia]].
    rewrite map_app, E1, E2.
    replace (rxns_end (produce_end n R P) l - n)
      with ((produce_end n R P - n)
            + (rxns_end (produce_end n R P) l - produce_end n R P)) by lia.
    rewrite seq_app. do 2 f_equal. lia.
Qed.

Lemma in_sum (l : list solution) (x : member) :
  In x (sum l) -> exists s, In s l /\ In x s.
Proof.
  induction l as [|s [|s' l] IH]; [intros []| |].
  - intros H. exists s. split; [now left | exact H].
  - change (sum (s :: s' :: l)) with (s ++ sum (s' :: l))%list.
    intros H. apply in_app_or in H as [H | H].
    + exists s. split; [now left | exact H].
    + destruct (IH H) as (s0 & H0 & Hx). exists s0. split; [now right|exact Hx].
Qed.

Lemma instances_domains (l : list (list sp * list sp * bool)) (d : domain) :
  In d (instance_domains (instances l)) -> In d (crn_domains l).
Proof.
  unfold instance_domains, instances, crn_domains.
  induction l as [|[[R P] rev] l IH]; [intros []|].
  cbn [flat_map fst snd]. rewrite flat_map_app. intros H.
  apply in_app_or in H as [H | H]; apply in_or_app; [left | right; auto].
  destruct rev; cbn [flat_map fst snd app] in H;
    rewrite ?app_nil_r in H;
    repeat (apply in_app_or in H as [H | H]); apply in_or_app; auto.
Qed.

Lemma nodup_map_inj {A B} (f : A -> B) (l : list A) (x y : A) :
  NoDup (map f l) -> In x l -> In y l -> f x = f y -> x = y.
Proof.
  induction l as [|a l IH]; intros ND Hx Hy E; [destruct Hx|].
  cbn [map] in ND. inversion ND as [|? ? Hnot ND']; subst.
  destruct Hx as [-> | Hx], Hy as [-> | Hy]; auto.
  - exfalso. apply Hnot. rewrite E. now apply in_map.
  - exfalso. apply Hnot. rewrite <- E. now apply in_map.
Qed.

Lemma names_unique_universe (D F : list domain) (n k : nat) :
  names_unique D ->
  (forall d, In d D -> dname d < n) ->
  map dname F = seq n k ->
  Forall (fun d => base d = d) F ->
  forall d e,
    In (base d) (map base D ++ F) -> In (base e) (map base D ++ F) ->
    dname d = dname e -> base d = base e.
Proof.
  intros HU Hlt HF HB d e Hd He Hn.
  assert (Hold : forall x, In (base x) (map base D) ->
                 exists y, In y D /\ base y = base x).
  { intros x Hx. apply in_map_iff in Hx as (y & E & Hy). eauto. }
  assert (Hnew : forall x, In (base x) F -> n <= dname x).
  { intros x Hx. apply (in_map dname) in Hx. rewrite HF in Hx.
    apply in_seq in Hx. cbn [base dname] in Hx. lia. }
  assert (Hname : forall x y, base y = base x -> dname y = dname x).
  { intros x y E. now apply (f_equal dname) in E. }
  apply in_app_or in Hd as [Hd | Hd]; apply in_app_or in He as [He | He].
  - destruct (Hold _ Hd) as (d' & Hd' & Ed). destruct (Hold _ He) as (e' & He' & Ee).
    rewrite <- Ed, <- Ee. apply HU; auto.
    rewrite (Hname _ _ Ed), (Hname _ _ Ee). exact Hn.
  - destruct (Hold _ Hd) as (d' & Hd' & Ed).
    pose proof (Hlt _ Hd'). pose proof (Hnew _ He).
    pose proof (Hname _ _ Ed). lia.
  - destruct (Hold _ He) as (e' & He' & Ee).
    pose proof (Hlt _ He'). pose proof (Hnew _ Hd).
    pose proof (Hname _ _ Ee). lia.
  - assert (ND : NoDup (map dname F)) by (rewrite HF; apply seq_NoDup).
    exact (nodup_map_inj dname F (base d) (base e) ND Hd He Hn).
Qed.

End Allocation.

(** ** Properties of the scheme *)

Section Properties.

Local Open Scope string_scope.

Lemma formal_run (x : string) (n : nat) :
  formal x n = Some (species (formal_at n), n + 3).
Proof.
  unfold formal, bind, short, long, fresh, ret, formal_at, species; simpl.
  replace (n + 1) with (S n) by lia.
  replace (n + 2) with (S (S n)) by lia.
  replace (n + 3) with (S (S (S n))) by lia.
  reflexivity.
Qed.

(** C1: [flux] splits three ways on the number of products.  Without a
    product it returns the empty flux and allocates nothing; with one
    product it returns one complex of two unpaired domains, the long domain
    [h] it has just allocated and then the [f] of the product; with two or
    more products it returns one complex of the freshly allocated long
    domain [h] alone. *)
Theorem flux_three_way (r : list cplx) (P : list sp) (n : nat) :
  match P with
  | [] => flux r (map species P) n = Some ([[]], n)
  | [t] =>
      exists c, flux r (map species P) n = Some ([[c]], S n)
        /\ sequence c = [Dom (mkDomain n Long [] false); Dom (spf t)]
        /\ structure c = [Dot; Dot]
  | _ =>
      exists c, flux r (map species P) n = Some ([[c]], S n)
        /\ sequence c = [Dom (mkDomain n Long [] false)]
        /\ structure c = [Dot]
  end.
Proof.
  pose proof (flux_run r P n) as H.
  destruct P as [|t [|u P]]; cbn [flux_at flux_cost] in H.
  - now rewrite Nat.add_0_r in H.
  - rewrite Nat.add_1_r in H. eexists; split; [exact H|]. now split.
  - rewrite Nat.add_1_r in H. eexists; split; [exact H|]. now split.
Qed.

Lemma irrev_reactions_idem (crn : list reaction) :
  irrev_reactions (irrev_reactions crn) = irrev_reactions crn.
Proof.
  unfold irrev_reactions.
  induction crn as [|r crn IH]; [reflexivity|].
  cbn [flat_map]. rewrite flat_map_app, IH. f_equal.
  destruct (reversible r) eqn:E; cbn [flat_map reversible app]; [reflexivity|].
  now rewrite E.
Qed.

(** C2: [main] compiles the expansion of the network: every reversible
    reaction is replaced by its forward and then its backward irreversible
    instance, the irreversible ones are kept, and only then the reactions
    are compiled.  So a reversible reaction compiles to the solution of its
    forward instance together with that of its backward instance, compiled
    one after the other on the same allocator, which is also what the
    network of the two irreversible reactions compiles to. *)
Theorem reversible_expansion :
  (forall crn n, main crn n = (v <- map' rxn (irrev_reactions crn) ;; ret (sum v)) n)
  /\ (forall r crn,
        irrev_reactions (r :: crn)
        = ((if reversible r
            then [mkReaction (reactants r) (products r) false;
                  mkReaction (products r) (reactants r) false]
            else [r]) ++ irrev_reactions crn)%list)
  /\ (forall crn n, main crn n = main (irrev_reactions crn) n)
  /\ (forall R P n,
        exists s1 n1 s2 n2,
          rxn (rx R P false) n = Some (s1, n1)
          /\ rxn (rx P R false) n1 = Some (s2, n2)
          /\ main [rx R P true] n = Some ((s1 ++ s2)%list, n2)
          /\ main [rx R P false; rx P R false] n = Some ((s1 ++ s2)%list, n2)
          /\ same_solution (s1 ++ s2)%list (sum [s1; s2])).
Proof.
  split; [reflexivity|]. split; [reflexivity|]. split.
  - intros crn n. unfold main. now rewrite irrev_reactions_idem.
  - intros R P n.
    exists (rxn_at n R P), (produce_end n R P),
           (rxn_at (produce_end n R P) P R),
           (produce_end (produce_end n R P) P R).
    split; [apply rxn_run|]. split; [apply rxn_run|].
    split; [exact (main_run [(R, P, true)] n)|].
    split; [exact (main_run [(R, P, false); (P, R, false)] n)|].
    intros x; reflexivity.
Qed.

(** C2, as stated, fails when the two irreversible reactions are compiled
    each on its own from the same allocator state: for [A + B <-> C] at
    counter 9 the backward gate of the reversible reaction has the flux
    handle named 10, and no complex of the two separate compilations has
    it. *)
Lemma reversible_expansion_cex :
  ~ (exists s n' s1 n1 s2 n2,
       main [rx [spA; spB] [spC] true] 9 = Some (s, n')
       /\ main [rx [spA; spB] [spC] false] 9 = Some (s1, n1)
       /\ main [rx [spC] [spA; spB] false] 9 = Some (s2, n2)
       /\ same_solution s (sum [s1; s2])).
Proof.
  intros (s & n' & s1 & n1 & s2 & n2 & H & H1 & H2 & Hs).
  vm_compute in H. injection H as <- _.
  vm_compute in H1. injection H1 as <- _.
  vm_compute in H2. injection H2 as <- _.
  pose proof (proj1 (Hs _)
                (or_intror (or_intror (or_intror (or_introl eq_refl))))) as Hin.
  vm_compute in Hin.
  repeat (destruct Hin as [Hin | Hin]; [discriminate Hin|]).
  exact Hin.
Qed.

(** C3: the product side of [rxn].  Without products no product complex is
    built, whatever the reactant side is.  With one product the builder is
    [srinivas_pgate_p1], with more [srinivas_pgate]; its first operand is
    the list of reactant-gate complexes when there is no reactant and the
    reactant list otherwise.  Its history operand is [react[0].fl[0].h]:
    the first reactant-gate complex has the flux as its attribute [fl], the
    first complex of that flux has the attribute [h], the long domain that
    [flux] allocated last on the reactant side, and this [h] is the first
    domain of the product complex that the builder returns. *)
Theorem produce_selection (R P : list sp) (rev : bool) (n : nat) :
  let r := rx R P rev in
  exists react n1 out n2,
    react_of r n = Some (react, n1)
    /\ produce_of r react n1 = Some (out, n2)
    /\ rxn r n = Some (sum (map infty (react ++ out)%list), n2)
    /\ match P with
       | [] => out = [] /\ forall react', produce_of r react' = ret []
       | _ :: P' =>
           exists core fl c h top rest tl,
             idx react 0 = Some core
             /\ list_attr core "fl" = Some fl
             /\ idx fl 0 = Some c
             /\ dom_attr c "h" = Some h
             /\ h = mkDomain (n1 - 1) Long [] false
             /\ n < n1
             /\ hist_of react = Some h
             /\ produce_of r react
                = match P' with
                  | [] => srinivas_pgate_p1
                  | _ => srinivas_pgate
                  end
                    (match R with [] => react | _ => reactants r end)
                    (products r) h
             /\ out = top :: rest
             /\ sequence top = Dom h :: tl
       end.
Proof.
  intros r. subst r.
  exists (react_at n R P), (react_end n R P),
         (produce_at n R P), (produce_end n R P).
  split; [apply react_of_run|]. split; [apply produce_of_run|].
  split; [apply rxn_run|].
  destruct P as [|t P]; [split; reflexivity|].
  pose proof (hist_of_react R (t :: P) n) as Hh. cbv iota in Hh.
  assert (Hn : handle n R = mkDomain (react_end n R (t :: P) - 1) Long [] false
               /\ n < react_end n R (t :: P)).
  { destruct R; unfold handle, react_end, h_at, flux_cost;
      split; try lia; f_equal; lia. }
  destruct Hn as [Hn Hlt].
  assert (Hsel : produce_of (rx R (t :: P) rev) (react_at n R (t :: P))
                 = match P with
                   | [] => srinivas_pgate_p1
                   | _ => srinivas_pgate
                   end
                     (match R with
                      | [] => react_at n R (t :: P)
                      | _ => reactants (rx R (t :: P) rev)
                      end)
                     (products (rx R (t :: P) rev)) (handle n R)).
  { unfold produce_of, rx; cbn [reactants products].
    destruct P as [|u P].
    - change (len (map species [t]) =? 0)%Z with false.
      change (len (map species [t]) =? 1)%Z with true. cbv iota.
      unfold bind. rewrite Hh. destruct R; reflexivity.
    - destruct (len_cons2 (species t) (species u) (map species P)) as [E0 E1].
      change (map species (t :: u :: P))
        with (species t :: species u :: map species P).
      rewrite E0, E1. unfold bind. rewrite Hh.
      destruct R as [|a R]; [reflexivity|].
      change (map species (a :: R)) with (species a :: map species R).
      now rewrite (len_cons (species a) (map species R)). }
  assert (Hlook : exists core c,
             idx (react_at n R (t :: P)) 0 = Some core
             /\ list_attr core "fl" = Some [c]
             /\ dom_attr c "h" = Some (handle n R)).
  { destruct R as [|a R], P as [|u P]; do 2 eexists; repeat split. }
  destruct Hlook as (core & c & Hcore & Hfl & Hc).
  assert (Htop : exists top rest tl,
             produce_at n R (t :: P) = top :: rest
             /\ sequence top = Dom (handle n R) :: tl).
  { destruct P as [|u P]; do 3 eexists; split; reflexivity. }
  destruct Htop as (top & rest & tl & Hout & Hseq).
  exists core, [c], c, (handle n R), top, rest, tl.
  repeat split; assumption.
Qed.

Lemma column_rows {A} (a b c : A -> cplx) (l : list A) :
  column 0 (map (fun x => [a x; b x; c x]) l) = map a l
  /\ column 1 (map (fun x => [a x; b x; c x]) l) = map b l
  /\ column 2 (map (fun x => [a x; b x; c x]) l) = map c l.
Proof.
  unfold column. induction l as [|x l (IH0 & IH1 & IH2)]; [now repeat split|].
  simpl in *. repeat split; f_equal; assumption.
Qed.

Lemma sum_infty (l : list cplx) :
  sum (map infty l) = map (fun c => mkMember c true) l.
Proof.
  induction l as [|c [|c' l] IH]; try reflexivity.
  change (infty c ++ sum (map infty (c' :: l))
          = mkMember c true :: map (fun c => mkMember c true) (c' :: l))%list.
  now rewrite IH.
Qed.

Lemma with_history_nth (P : list sp) (n i : nat) (y : sp) :
  nth_error P i = Some y ->
  nth_error (with_history n P) i = Some (hy_at (n + i), y).
Proof.
  revert n i; induction P as [|t P IH]; intros n [|i] H; try discriminate.
  - simpl in *. inversion H. now rewrite Nat.add_0_r.
  - simpl in *. rewrite (IH (S n) i H). do 3 f_equal. lia.
Qed.

Lemma with_history_length (P : list sp) (n : nat) :
  List.length (with_history n P) = List.length P.
Proof. revert n; induction P; intros n; simpl; auto. Qed.



(** C7, as the scheme has it: with two or more products the top complex of
    the product gate shows the [f m s] of the first product behind the flux
    handle [h] of the reaction, the untagged [long()] that [flux] allocated
    once for it; the domains tagged [history] are those of [prodg], one
    allocated anew for each further product, and the top complex splices
    one [prodg] strand for each of them. *)
Theorem product_gate_history (R : list sp) (t u : sp) (P : list sp)
        (rev : bool) (n : nat) :
  let r := rx R (t :: u :: P) rev in
  exists react n1 top helper n2 hx ns rest,
    react_of r n = Some (react, n1)
    /\ produce_of r react n1 = Some ([top; helper], n2)
    /\ hist_of react = Some hx
    /\ hx = mkDomain (n1 - 1) Long [] false
    /\ n < n1
    /\ sequence top
       = (Dom hx :: Dom (spf t) :: Dom (spm t) :: Dom (sps t) :: Break :: rest)%list
    /\ list_attr top "n" = Some ns
    /\ List.length ns = List.length (u :: P)
    /\ n2 = n1 + List.length (u :: P)
    /\ forall i y, nth_error (u :: P) i = Some y ->
         exists c, nth_error ns i = Some c
           /\ sequence c
              = [Dom (mkDomain (n1 + i) Long [("tag", "history")] false);
                 Dom (spf y); Dom (spm y); Dom (sps y); Break].
Proof.
  intros r. subst r.
  set (Q := t :: u :: P).
  exists (react_at n R Q), (react_end n R Q).
  exists (pgate_top (anchor_s n R) (handle n R) t
                    (with_history (react_end n R Q) (u :: P))).
  exists (pgate_helper t (with_history (react_end n R Q) (u :: P))).
  exists (produce_end n R Q), (handle n R).
  exists (map prodg1 (with_history (react_end n R Q) (u :: P))).
  eexists.
  split; [apply react_of_run|].
  split; [exact (produce_of_run R Q rev n)|].
  split; [exact (hist_of_react R Q n)|].
  split.
  { destruct R; unfold handle, react_end, h_at, Q, flux_cost; f_equal; lia. }
  split; [destruct R; unfold react_end, Q, flux_cost; lia|].
  split; [reflexivity|].
  split; [reflexivity|].
  split; [now rewrite length_map, with_history_length|].
  split; [reflexivity|].
  intros i y Hy. exists (prodg1 (hy_at (react_end n R Q + i), y)).
  split; [|reflexivity].
  now rewrite nth_error_map, (with_history_nth _ _ _ Hy).
Qed.

Lemma product_gate_history_witness :
  exists react n1 top helper n2 c,
    react_of (rx [spA] [spB; spC] false) 9 = Some (react, n1)
    /\ produce_of (rx [spA] [spB; spC] false) react n1 = Some ([top; helper], n2)
    /\ list_attr top "n" = Some [c]
    /\ sequence c
       = [Dom (mkDomain 10 Long [("tag", "history")] false);
          Dom (spf spC); Dom (spm spC); Dom (sps spC); Break].
Proof.
  destruct (product_gate_history [spA] spB spC [] false 9)
    as (react & n1 & top & helper & n2 & hx & ns & rest
        & H1 & H2 & H3 & H4 & H5 & H6 & H7 & H8 & H9 & H10).
  destruct (H10 0 spC eq_refl) as (c & Hc & Hs).
  pose proof H1 as E. vm_compute in E. injection E as E1 E2.
  rewrite <- E2 in Hs. clear E1 E2.
  exists react, n1, top, helper, n2, c.
  split; [exact H1|]. split; [exact H2|].
  destruct ns as [|c' [|c'' ns]]; try discriminate.
  simpl in Hc. inversion Hc; subst c'.
  split; [exact H7|exact Hs].
Defined.

(** C7, as stated, fails: for [A -> B + C] the domain in front of the
    [f m s] of [B] in the top complex does not carry the history tag. *)
Lemma product_gate_history_cex :
  ~ (exists react n1 top helper n2 hx rest,
       react_of (rx [spA] [spB; spC] false) 9 = Some (react, n1)
       /\ produce_of (rx [spA] [spB; spC] false) react n1
          = Some ([top; helper], n2)
       /\ sequence top
          = (Dom hx :: Dom (spf spB) :: Dom (spm spB) :: Dom (sps spB) :: rest)%list
       /\ history_tagged hx).
Proof.
  intros (react & n1 & top & helper & n2 & hx & rest & H1 & H2 & H3 & H4).
  vm_compute in H1. injection H1 as <- <-.
  vm_compute in H2. injection H2 as <- <- <-.
  vm_compute in H3. injection H3 as <- _. vm_compute in H4. exact H4.
Qed.

(** C8, as the scheme has it: whatever the numbers of reactants and of
    products, [rxn] picks [srinivas_rgate_r0] or [srinivas_rgate] by the
    reactants and nothing, [srinivas_pgate_p1] or [srinivas_pgate] by the
    products, returns without an error and yields a solution that is not
    empty; this holds as well for the reaction without reactants and
    without products, whose solution is the core and the fuel complex of
    [srinivas_rgate_r0]. *)
Theorem arity_coverage (R P : list sp) (rev : bool) (n : nat) :
  let r := rx R P rev in
  exists s n',
    rxn r n = Some (s, n')
    /\ s <> []
    /\ react_of r
       = match R with
         | [] => srinivas_rgate_r0 (reactants r) (products r)
         | _ => srinivas_rgate (reactants r) (products r)
         end
    /\ (forall react,
          produce_of r react
          = match P with
            | [] => ret []
            | [_] =>
                hist <- lift (hist_of react) ;;
                srinivas_pgate_p1
                  (match R with [] => react | _ => reactants r end)
                  (products r) hist
            | _ =>
                hist <- lift (hist_of react) ;;
                srinivas_pgate
                  (match R with [] => react | _ => reactants r end)
                  (products r) hist
            end)
    /\ (R = [] -> P = [] ->
        exists core fuel,
          s = [mkMember core true; mkMember fuel true]
          /\ srinivas_rgate_r0 [] [] n = Some ([core; fuel], n')).
Proof.
  intros r. subst r.
  exists (rxn_at n R P), (produce_end n R P).
  split; [apply rxn_run|].
  split.
  { unfold rxn_at. rewrite sum_infty. destruct R; discriminate. }
  split.
  { unfold react_of, rx; cbn [reactants products].
    destruct R as [|a R]; [reflexivity|].
    change (map species (a :: R)) with (species a :: map species R).
    now rewrite (len_cons (species a) (map species R)). }
  split.
  { intros react. unfold produce_of, rx; cbn [reactants products].
    destruct P as [|t [|u P]].
    - reflexivity.
    - change (len (map species [t]) =? 0)%Z with false.
      change (len (map species [t]) =? 1)%Z with true. cbv iota.
      destruct R as [|a R]; [reflexivity|].
      change (map species (a :: R)) with (species a :: map species R).
      now rewrite (len_cons (species a) (map species R)).
    - destruct (len_cons2 (species t) (species u) (map species P)) as [E0 E1].
      change (map species (t :: u :: P))
        with (species t :: species u :: map species P).
      rewrite E0, E1.
      destruct R as [|a R]; [reflexivity|].
      change (map species (a :: R)) with (species a :: map species R).
      now rewrite (len_cons (species a) (map species R)). }
  intros -> ->. do 2 eexists. split; [reflexivity|].
  exact (srinivas_rgate_r0_run [] [] n).
Qed.

Lemma arity_coverage_witness :
  exists core fuel n',
    rxn (rx [] [] false) 0
    = Some ([mkMember core true; mkMember fuel true], n')
    /\ srinivas_rgate_r0 [] [] 0 = Some ([core; fuel], n').
Proof.
  destruct (arity_coverage [] [] false 0)
    as (s & n' & Hrun & _ & _ & _ & H00).
  destruct (H00 eq_refl eq_refl) as (core & fuel & -> & Hr0).
  now exists core, fuel, n'.
Defined.

(** C8, as stated, fails: the reaction without reactants and without
    products is no error, and its solution is not empty. *)
Lemma arity_coverage_cex :
  ~ (rxn (mkReaction [] [] false) 0 = None
     \/ exists n', rxn (mkReaction [] [] false) 0 = Some ([], n')).
Proof.
  intros [H | (n' & H)]; vm_compute in H; discriminate H.
Qed.

(** C9: [react[0].fl[0].h] is read only where it has a value.  With at least
    one product, the flux is one complex that starts with the long domain
    [h] allocated by [flux], the first reactant-gate complex carries it as
    its attribute [fl], and the lookup yields that [h].  Without products
    the lookup would have no value, and [produce] does not evaluate it: the
    product side is empty whatever the reactant side is, and [rxn] returns. *)
Theorem history_handle_defined (R P : list sp) (rev : bool) (n : nat) :
  let r := rx R P rev in
  let nf := match R with [] => n + 3 | _ => n end in
  exists react n1 s n2,
    react_of r n = Some (react, n1)
    /\ rxn r n = Some (s, n2)
    /\ match P with
       | [] =>
           hist_of react = None
           /\ forall react', produce_of r react' = ret []
       | _ =>
           exists core c h rest,
             idx react 0 = Some core
             /\ flux (reactants r) (products r) nf = Some ([[c]], n1)
             /\ list_attr core "fl" = Some [c]
             /\ idx [c] 0 = Some c
             /\ dom_attr c "h" = Some h
             /\ h = mkDomain nf Long [] false
             /\ sequence c = Dom h :: rest
             /\ hist_of react = Some h
       end.
Proof.
  intros r nf. subst r nf.
  exists (react_at n R P), (react_end n R P),
         (rxn_at n R P), (produce_end n R P).
  split; [apply react_of_run|]. split; [apply rxn_run|].
  destruct P as [|t P].
  - split; [apply hist_of_react|].
    intros react'. reflexivity.
  - pose proof (flux_run (reactants (rx R (t :: P) rev)) (t :: P)
                         (match R with [] => n + 3 | _ => n end)) as Hf.
    replace (match R with [] => n + 3 | _ => n end + flux_cost (t :: P))
      with (react_end n R (t :: P)) in Hf by (destruct R; reflexivity).
    destruct R as [|a R], P as [|u P];
      (do 4 eexists; split; [reflexivity|]; split; [exact Hf|];
       repeat split).
Qed.

(** C10, as the scheme has it: with exactly one reactant [reactg] is mapped
    over no index at all, so [srinivas_rgate] returns the core complex of
    two strands, [m s] of the reactant followed by the flux, and
    [s* m* f*], with the flux as its attribute [fl], and a second complex
    that splices no junction strand and so has no domain. *)
Theorem single_reactant_gate (a : sp) (P : list sp) (n : nat) :
  let r := map species [a] in
  exists fl core release n',
    junctions r n = Some ([], n)
    /\ flux r (map species P) n = Some ([fl], n')
    /\ srinivas_rgate r (map species P) n = Some ([core; release], n')
    /\ list_attr core "fl" = Some fl
    /\ strands core
       = [ (spm a :: sps a :: domains (flat_map sequence fl))%list;
           [comp (sps a); comp (spm a); comp (spf a)] ]
    /\ structure core
       = (Plus :: Open :: Open :: flat_map structure fl
          ++ [Plus; Close; Close; Dot])%list
    /\ sequence release = []
    /\ structure release = []
    /\ strands release = [].
Proof.
  intros r. subst r.
  exists (flux_at n P).
  do 3 eexists.
  split; [exact (junctions_run (R := [a]) n ltac:(congruence))|].
  split; [apply flux_run|].
  split; [exact (srinivas_rgate_run a [] P n)|].
  destruct P as [|t [|u P]]; now repeat split.
Qed.

(** C10, as stated, fails: for [A -> B] the second complex of the reactant
    gate holds no strand, so it is not a release strand of the flux. *)
Lemma single_reactant_gate_cex :
  ~ (exists core release n',
       srinivas_rgate (map species [spA]) (map species [spB]) 6
       = Some ([core; release], n')
       /\ strands release <> []).
Proof.
  intros (core & release & n' & H & Hs).
  vm_compute in H. injection H as <- <- <-. apply Hs. reflexivity.
Qed.

Lemma rxns_well_formed (l : list (list sp * list sp)) (n : nat)
      (s : solution) (x : member) :
  In s (rxns_at n l) -> In x s -> well_formed (m_cplx x) = true.
Proof.
  revert n; induction l as [|[R P] l IH]; intros n Hs Hx; [destruct Hs|].
  cbn [rxns_at fst snd] in Hs. destruct Hs as [<- | Hs]; [|eauto].
  unfold rxn_at in Hx. rewrite sum_infty in Hx.
  apply in_map_iff in Hx as (c & <- & Hc). cbn [m_cplx].
  apply in_app_or in Hc as [Hc | Hc].
  - exact (proj1 (Forall_forall _ _) (well_formed_react n R P) c Hc).
  - exact (proj1 (Forall_forall _ _) (well_formed_produce n R P) c Hc).
Qed.

Lemma in_domains (s : list item) (d : domain) : In d (domains s) -> In (Dom d) s.
Proof.
  induction s as [|[e|] s IH]; cbn [domains]; [intros []| |].
  - intros [-> | H]; [now left | right; auto].
  - intros H. right; auto.
Qed.

Lemma nodup_names_unique (ds : list domain) :
  NoDup (map dname ds) -> names_unique ds.
Proof.
  intros ND d e Hd He E. now rewrite (nodup_map_inj dname ds d e ND Hd He E).
Qed.

(** C4: compiling a network between formal species whose domains were
    issued before the compilation starts, no two of them under one name,
    returns a solution in which every complex has a structure that fits its
    sequence (the same number of positions, the strand breaks at the same
    positions, a balanced nesting, complementary domains at the two ends of
    every pair) and in which no two distinct domains share a name. *)
Theorem compiled_complexes_well_formed
        (l : list (list sp * list sp * bool)) (n : nat) :
  names_unique (crn_domains l) ->
  (forall d, In d (crn_domains l) -> dname d < n) ->
  exists s n',
    main (crn_of l) n = Some (s, n')
    /\ (forall x, In x s ->
          well_formed (m_cplx x) = true /\ pairing_ok (m_cplx x))
    /\ names_unique (solution_domains s).
Proof.
  intros HU Hlt. rewrite main_run. do 2 eexists. split; [reflexivity|].
  split.
  - intros x Hx. apply in_sum in Hx as (s0 & Hs0 & Hx).
    pose proof (rxns_well_formed _ _ _ _ Hs0 Hx) as W.
    split; [exact W | exact (well_formed_pairing _ W)].
  - set (F := issued_all n (instances l)).
    set (U := (map base (crn_domains l) ++ F)%list).
    destruct (issued_all_names (instances l) n) as (EF & BF & _).
    assert (HD : forall d, In d (instance_domains (instances l)) ->
                 In (base d) U).
    { intros d Hd. apply in_or_app; left. apply in_map.
      now apply instances_domains. }
    assert (HI : forall d, In d F -> In (base d) U).
    { intros d Hd. apply in_or_app; right.
      now rewrite (proj1 (Forall_forall _ _) BF d Hd). }
    assert (HK : forall d,
               In d (solution_domains (sum (rxns_at n (instances l)))) ->
               In (base d) U).
    { intros d Hd. unfold solution_domains in Hd.
      apply in_flat_map in Hd as (x & Hx & Hd).
      apply in_sum in Hx as (s0 & Hs0 & Hx).
      pose proof (rxns_in U (instances l) n s0 x HD HI Hs0 Hx) as HC.
      exact (proj1 (Forall_forall _ _) HC (Dom d) (in_domains _ _ Hd)). }
    intros d e Hd He E.
    exact (@names_unique_universe _ _ _ _ HU Hlt EF BF d e (HK d Hd) (HK e He) E).
Qed.

Lemma compiled_complexes_well_formed_witness :
  exists s n',
    main (crn_of [([spA; spB], [spC], true)]) 9 = Some (s, n')
    /\ (forall x, In x s ->
          well_formed (m_cplx x) = true /\ pairing_ok (m_cplx x))
    /\ names_unique (solution_domains s).
Proof.
  apply (@compiled_complexes_well_formed [([spA; spB], [spC], true)] 9).
  - apply nodup_names_unique. vm_compute.
    repeat (constructor; [simpl; intuition discriminate|]). constructor.
  - intros d Hd. vm_compute in Hd.
    repeat (destruct Hd as [<- | Hd]; [simpl; lia|]). destruct Hd.
Defined.

End Properties.

(** ** Strands of the gates *)

Section Strands.

Local Open Scope string_scope.

Lemma split_strands_doms (ds : list domain) (s : list item) (cur : list domain) :
  split_strands (map Dom ds ++ s) cur = split_strands s (rev ds ++ cur).
Proof.
  revert cur; induction ds as [|d ds IH]; intros cur; [reflexivity|].
  cbn [map app split_strands rev]. rewrite IH, <- app_assoc. reflexivity.
Qed.

Lemma split_strands_reactg1 (L : list jn) (s : list item) :
  split_strands (flat_map sequence (map reactg1 L) ++ s) []
  = (map (fun x => [jmb x; jsb x; jfa x]) L ++ split_strands s [])%list.
Proof.
  induction L as [|x L IH]; [reflexivity|].
  cbn [map flat_map].
  change (sequence (reactg1 x))
    with [Dom (jmb x); Dom (jsb x); Dom (jfa x); Break].
  cbn [app split_strands rev]. now rewrite IH.
Qed.

Lemma split_strands_prodg1 (H : list (domain * sp)) (s : list item) :
  split_strands (flat_map sequence (map prodg1 H) ++ s) []
  = (map (fun x => [fst x; spf (snd x); spm (snd x); sps (snd x)]) H
     ++ split_strands s [])%list.
Proof.
  induction H as [|x H IH]; [reflexivity|].
  cbn [map flat_map].
  change (sequence (prodg1 x))
    with [Dom (fst x); Dom (spf (snd x)); Dom (spm (snd x));
          Dom (sps (snd x)); Break].
  cbn [app split_strands rev]. now rewrite IH.
Qed.

Lemma sequence_reactg2 (L : list jn) :
  flat_map sequence (rev (map reactg2 L))
  = map Dom (map comp (rev (link_domains L))).
Proof.
  induction L as [|x L IH]; [reflexivity|].
  cbn [map rev]. rewrite flat_map_app, IH.
  change (link_domains (x :: L))
    with ([jmb x; jsb x; jfa x] ++ link_domains L)%list.
  rewrite rev_app_distr, !map_app. reflexivity.
Qed.

Lemma sequence_prodg2 (H : list (domain * sp)) :
  flat_map sequence (rev (map prodg2 H))
  = map Dom (map comp (rev (history_domains H))).
Proof.
  induction H as [|x H IH]; [reflexivity|].
  cbn [map rev]. rewrite flat_map_app, IH.
  change (history_domains (x :: H))
    with ([fst x; spf (snd x)] ++ history_domains H)%list.
  rewrite rev_app_distr, !map_app. reflexivity.
Qed.

Lemma sequence_reactg3 (L : list jn) :
  flat_map sequence (map reactg3 L) = map Dom (link_domains L)
  /\ flat_map structure (map reactg3 L)
     = map (fun _ => Dot) (link_domains L).
Proof.
  induction L as [|x L [IH1 IH2]]; [now split|].
  cbn [map flat_map]. rewrite IH1, IH2. now split.
Qed.

Lemma sequence_prodg3 (H : list (domain * sp)) :
  flat_map sequence (map prodg3 H) = map Dom (history_domains H)
  /\ flat_map structure (map prodg3 H)
     = map (fun _ => Dot) (history_domains H).
Proof.
  induction H as [|x H [IH1 IH2]]; [now split|].
  cbn [map flat_map]. rewrite IH1, IH2. now split.
Qed.

Lemma sequence_flux (n : nat) (P : list sp) :
  flat_map sequence (flux_at n P) = map Dom (flux_domains n P).
Proof. destruct P as [|t [|u P]]; reflexivity. Qed.

Lemma filter_nonempty_map {A B} (f : A -> list B) (l : list A) :
  (forall x, nonempty (f x) = true) ->
  filter nonempty (map f l) = map f l.
Proof.
  intros H. induction l as [|x l IH]; [reflexivity|].
  cbn [map filter]. now rewrite H, IH.
Qed.

Lemma last_default {A} (x a b : A) (l : list A) :
  last (x :: l) a = last (x :: l) b.
Proof.
  revert x; induction l as [|y l IH]; intros x; [reflexivity|].
  exact (IH y).
Qed.

Lemma species_domains_links (a : sp) (R : list sp) :
  species_domains (a :: R)
  = (spf a :: link_domains (links (a :: R))
     ++ [spm (last (a :: R) a); sps (last (a :: R) a)])%list.
Proof.
  revert a; induction R as [|b R IH]; intros a; [reflexivity|].
  change (species_domains (a :: b :: R))
    with ([spf a; spm a; sps a] ++ species_domains (b :: R))%list.
  rewrite (IH b).
  change (links (a :: b :: R)) with ((spm a, sps a, spf b) :: links (b :: R)).
  change (last (a :: b :: R) a) with (last (b :: R) a).
  rewrite (last_default b a b R). reflexivity.
Qed.

Lemma rgate_core_strands (a : sp) (R P : list sp) (n : nat) :
  strands (rgate_core (spf a) (spm (last (a :: R) a)) (sps (last (a :: R) a))
                      (links (a :: R)) (flux_at n P))
  = (map (fun x => [jmb x; jsb x; jfa x]) (links (a :: R))
     ++ [ spm (last (a :: R) a) :: sps (last (a :: R) a) :: flux_domains n P;
          rev (map comp (species_domains (a :: R))) ])%list.
Proof.
  unfold strands, rgate_core, dna. cbn [sequence flat_map tok_seq].
  rewrite split_strands_reactg1. cbn [app split_strands rev].
  rewrite sequence_flux, split_strands_doms. cbn [app split_strands rev].
  rewrite sequence_reactg2, split_strands_doms. cbn [app split_strands rev].
  rewrite filter_app, filter_nonempty_map by reflexivity.
  apply f_equal.
  rewrite !rev_app_distr, !rev_involutive. cbn [rev app filter nonempty].
  rewrite species_domains_links. cbn [map rev].
  rewrite map_app, rev_app_distr, map_rev. reflexivity.
Qed.

Lemma r0_core_strands (f m s : domain) (n : nat) (P : list sp) :
  strands (r0_core f m s (flux_at n P))
  = [m :: s :: flux_domains n P; [comp s; comp m; comp f]].
Proof. destruct P as [|t [|u P]]; reflexivity. Qed.

Lemma pgate_top_strands (sa hx : domain) (t : sp) (H : list (domain * sp)) :
  strands (pgate_top sa hx t H)
  = ([hx; spf t; spm t; sps t]
     :: map (fun x => [fst x; spf (snd x); spm (snd x); sps (snd x)]) H
     ++ [rev (map comp (sa :: hx :: spf t :: history_domains H))])%list.
Proof.
  unfold strands, pgate_top, dna. cbn [sequence flat_map tok_seq].
  cbn [app split_strands rev].
  rewrite split_strands_prodg1. cbn [app split_strands rev].
  rewrite sequence_prodg2, split_strands_doms. cbn [app split_strands rev].
  cbn [filter nonempty]. apply f_equal.
  rewrite filter_app, filter_nonempty_map by reflexivity. apply f_equal.
  rewrite !rev_app_distr, !rev_involutive. cbn [rev app filter nonempty map].
  rewrite map_rev.
  destruct (rev (map comp (history_domains H)));
    cbn [app filter nonempty]; rewrite <- ?app_assoc; reflexivity.
Qed.

Lemma pgate_helper_strands (t : sp) (H : list (domain * sp)) :
  strands (pgate_helper t H) = [spf t :: history_domains H].
Proof.
  destruct (sequence_prodg3 H) as [Hs _].
  unfold strands, pgate_helper, dna. cbn [sequence flat_map tok_seq].
  rewrite !app_nil_r, Hs. cbn [app split_strands].
  rewrite <- (app_nil_r (map Dom _)), split_strands_doms.
  cbn [split_strands]. rewrite rev_app_distr, rev_involutive. reflexivity.
Qed.

Lemma link_domains_length (L : list jn) :
  List.length (link_domains L) = 3 * List.length L.
Proof.
  induction L as [|x L IH]; [reflexivity|].
  change (link_domains (x :: L))
    with ([jmb x; jsb x; jfa x] ++ link_domains L)%list.
  rewrite length_app, IH. cbn [List.length]. lia.
Qed.

(** X1: the strands of the core complex of [srinivas_rgate].  Each junction
    gives one upper strand [m s f'] (the [m], [s] of a reactant and the [f]
    of the next); the last upper strand is the [m s] of the last reactant
    followed by the flux; the bottom strand is the reverse complement of
    the signal strands [f m s] of all the reactants, in their order. *)
Theorem reactant_gate_strands (a : sp) (R P : list sp) (n : nat) :
  exists core release n',
    srinivas_rgate (map species (a :: R)) (map species P) n
    = Some ([core; release], n')
    /\ strands core
       = (map (fun x => [jmb x; jsb x; jfa x]) (links (a :: R))
          ++ [ spm (last (a :: R) a) :: sps (last (a :: R) a)
                 :: flux_domains n P;
               rev (map comp (species_domains (a :: R))) ])%list.
Proof.
  rewrite srinivas_rgate_run. do 3 eexists. split; [reflexivity|].
  apply rgate_core_strands.
Qed.

Lemma domains_map_Dom (l : list domain) : domains (map Dom l) = l.
Proof.
  induction l as [|d l IH]; [reflexivity|].
  cbn [map domains]. now rewrite IH.
Qed.

Lemma rgate_release_strands (L : list jn) :
  strands (rgate_release L)
  = match L with [] => [] | _ => [link_domains L] end.
Proof.
  destruct (sequence_reactg3 L) as [Hs _].
  unfold strands, rgate_release, dna. cbn [sequence flat_map tok_seq].
  rewrite app_nil_r, Hs.
  rewrite <- (app_nil_r (map Dom _)), split_strands_doms.
  cbn [split_strands]. rewrite app_nil_r, rev_involutive.
  destruct L; reflexivity.
Qed.

(** X2: the second complex of [srinivas_rgate] splices the unpaired strands
    [m s f'] of the junctions one after the other without a strand break.
    With two or more reactants it is exactly one strand of three unpaired
    domains for each reactant but the last; with one reactant it has no
    strand. *)
Theorem reactant_gate_release (a : sp) (R P : list sp) (n : nat) :
  exists core release n',
    srinivas_rgate (map species (a :: R)) (map species P) n
    = Some ([core; release], n')
    /\ sequence release = map Dom (link_domains (links (a :: R)))
    /\ structure release = map (fun _ => Dot) (link_domains (links (a :: R)))
    /\ List.length (sequence release) = 3 * List.length R
    /\ strands release
       = match R with
         | [] => []
         | _ => [link_domains (links (a :: R))]
         end.
Proof.
  rewrite srinivas_rgate_run. do 3 eexists. split; [reflexivity|].
  cbn [react_at].
  split; [|split; [|split]].
  - destruct (sequence_reactg3 (links (a :: R))) as [Hs _].
    unfold rgate_release, dna. cbn [sequence flat_map tok_seq].
    now rewrite app_nil_r.
  - destruct (sequence_reactg3 (links (a :: R))) as [_ Ht].
    unfold rgate_release, dna. cbn [structure flat_map tok_str].
    now rewrite app_nil_r.
  - destruct (sequence_reactg3 (links (a :: R))) as [Hs _].
    unfold rgate_release, dna. cbn [sequence flat_map tok_seq].
    rewrite app_nil_r, Hs, length_map, link_domains_length, links_length.
    cbn [List.length]. lia.
  - rewrite rgate_release_strands. destruct R; reflexivity.
Qed.

(** C5, as the scheme has it: for a reactant list [r] of at least one
    species, [srinivas_rgate] maps [reactg] over the indices
    [0 .. len(r)-2].  The group of index [i] is three strand fragments:
    [mb sb fa] opened, its complement [fa* sb* mb*] closing it, and an
    unpaired [mb sb fa], where [mb] and [sb] are the [m] and [s] of
    reactant [i] and [fa] is the [f] of reactant [i+1].  They are not
    returned as junction complexes: the builder returns two complexes
    whatever the number of reactants.  The first fragments are upper
    strands of the core, the complements are segments, in reverse order, of
    its one bottom strand, and the unpaired fragments are spliced into the
    second complex without a strand break.  The core pairs the [m] and [s]
    of the last reactant around the flux. *)
Theorem reactant_gate_junctions (a : sp) (R P : list sp) (n : nat) :
  let r := map species (a :: R) in
  let mr := spm (last (a :: R) a) in
  let sr := sps (last (a :: R) a) in
  exists gs fl core release n',
    junctions r n = Some (gs, n)
    /\ List.length gs = List.length (a :: R) - 1
    /\ (forall i x y,
          nth_error (a :: R) i = Some x -> nth_error (a :: R) (S i) = Some y ->
          exists c1 c2 c3,
            nth_error gs i = Some [c1; c2; c3]
            /\ sequence c1 = [Dom (spm x); Dom (sps x); Dom (spf y); Break]
            /\ structure c1 = [Open; Open; Open; Plus]
            /\ sequence c2
               = [Dom (comp (spf y)); Dom (comp (sps x)); Dom (comp (spm x))]
            /\ structure c2 = [Close; Close; Close]
            /\ sequence c3 = [Dom (spm x); Dom (sps x); Dom (spf y)]
            /\ structure c3 = [Dot; Dot; Dot]
            /\ nth_error (strands core) i = Some [spm x; sps x; spf y])
    /\ flux r (map species P) n = Some ([fl], n')
    /\ srinivas_rgate r (map species P) n = Some ([core; release], n')
    /\ sequence core
       = (flat_map sequence (column 0 gs)
          ++ [Break; Dom mr; Dom sr] ++ flat_map sequence fl
          ++ [Break; Dom (comp sr); Dom (comp mr)]
          ++ flat_map sequence (rev (column 1 gs))
          ++ [Dom (comp (spf a))])%list
    /\ structure core
       = (flat_map structure (column 0 gs)
          ++ [Plus; Open; Open] ++ flat_map structure fl
          ++ [Plus; Close; Close]
          ++ flat_map structure (rev (column 1 gs))
          ++ [Dot])%list
    /\ sequence release = flat_map sequence (column 2 gs)
    /\ structure release = flat_map structure (column 2 gs)
    /\ List.length (strands core) = List.length (a :: R) + 1
    /\ last (strands core) []
       = (comp sr :: comp mr
          :: domains (flat_map sequence (rev (column 1 gs)))
          ++ [comp (spf a)])%list
    /\ strands release
       = match R with
         | [] => []
         | _ => [domains (flat_map sequence (column 2 gs))]
         end.
Proof.
  intros r mr sr. subst r mr sr.
  exists (map reactg_row (links (a :: R))), (flux_at n P),
         (rgate_core (spf a) (spm (last (a :: R) a)) (sps (last (a :: R) a))
                     (links (a :: R)) (flux_at n P)),
         (rgate_release (links (a :: R))), (n + flux_cost P).
  destruct (column_rows reactg1 reactg2 reactg3 (links (a :: R)))
    as (C0 & C1 & C2).
  unfold reactg_row. rewrite C0, C1, C2.
  split; [apply junctions_run; congruence|].
  split; [rewrite length_map; apply links_length|].
  split.
  { intros i x y Hx Hy.
    exists (reactg1 (spm x, sps x, spf y)), (reactg2 (spm x, sps x, spf y)),
           (reactg3 (spm x, sps x, spf y)).
    pose proof (links_nth _ _ Hx Hy) as HL.
    split; [rewrite nth_error_map, HL; reflexivity|].
    do 6 (split; [reflexivity|]).
    rewrite rgate_core_strands, nth_error_app1.
    - now rewrite nth_error_map, HL.
    - rewrite length_map. apply nth_error_Some. congruence. }
  split; [apply flux_run|].
  split; [apply srinivas_rgate_run|].
  split.
  { unfold rgate_core, dna; cbn [sequence flat_map tok_seq app].
    now rewrite ?app_nil_r. }
  split.
  { unfold rgate_core, dna; cbn [structure flat_map tok_str app].
    now rewrite ?app_nil_r. }
  split.
  { unfold rgate_release, dna; cbn [sequence flat_map tok_seq].
    now rewrite app_nil_r. }
  split.
  { unfold rgate_release, dna; cbn [structure flat_map tok_str].
    now rewrite app_nil_r. }
  split.
  { rewrite rgate_core_strands, length_app, length_map, links_length.
    cbn [List.length]. lia. }
  split.
  { rewrite rgate_core_strands.
    change (?l ++ [?x; ?y])%list with (l ++ [x] ++ [y])%list.
    rewrite app_assoc, last_last.
    rewrite species_domains_links, sequence_reactg2. cbn [map rev].
    rewrite map_app, rev_app_distr, map_rev, domains_map_Dom.
    reflexivity. }
  rewrite rgate_release_strands.
  destruct (sequence_reactg3 (links (a :: R))) as [Hs _].
  rewrite Hs, domains_map_Dom.
  destruct R; reflexivity.
Qed.

Lemma reactant_gate_junctions_witness :
  exists c1 c2 c3,
    junctions (map species [spA; spB]) 6 = Some ([[c1; c2; c3]], 6)
    /\ sequence c1 = [Dom (spm spA); Dom (sps spA); Dom (spf spB); Break].
Proof.
  destruct (reactant_gate_junctions spA [spB] [spC] 6)
    as (gs & fl & core & release & n' & Hj & Hl & Hi & _).
  destruct (Hi 0 spA spB eq_refl eq_refl)
    as (c1 & c2 & c3 & Hn & H1 & _).
  exists c1, c2, c3. split; [|exact H1].
  destruct gs as [|g [|g' gs]]; try discriminate.
  simpl in Hn. inversion Hn; subst. exact Hj.
Defined.

(** C5, as stated, fails: for [A + B -> C] the reactant gate is two
    complexes, and neither of them is the junction complex of the three
    strands [m s f'], [f'* s* m*] and [m s f']. *)
Lemma reactant_gate_junctions_cex :
  ~ (exists out n' c,
       srinivas_rgate (map species [spA; spB]) (map species [spC]) 9
       = Some (out, n')
       /\ In c out
       /\ strands c
          = [ [spm spA; sps spA; spf spB];
              [comp (spf spB); comp (sps spA); comp (spm spA)];
              [spm spA; sps spA; spf spB] ]).
Proof.
  intros (out & n' & c & H & Hin & Hs).
  vm_compute in H. injection H as <- _.
  destruct Hin as [<- | [<- | []]]; vm_compute in Hs; discriminate Hs.
Qed.

(** X3: the strands of the two complexes of [srinivas_pgate].  The top
    complex has the strand [hx f m s] of the first product, one strand
    [hy f m s] for each further product behind its own history domain, and
    a bottom strand that is the reverse complement of [sa hx f] followed by
    the [hy f] of the further products; the helper complex is the one
    strand [f] of the first product followed by those [hy f]. *)
Theorem product_gate_strands (r : list cplx) (sa hx : domain) (t : sp)
        (P : list sp) (n : nat) :
  field (idx r (len r - 1)) "s" = Some sa ->
  exists top helper,
    srinivas_pgate r (map species (t :: P)) hx n
    = Some ([top; helper], n + List.length P)
    /\ strands top
       = ([hx; spf t; spm t; sps t]
          :: map (fun x => [fst x; spf (snd x); spm (snd x); sps (snd x)])
                 (with_history n P)
          ++ [rev (map comp (sa :: hx :: spf t
                             :: history_domains (with_history n P)))])%list
    /\ strands helper = [spf t :: history_domains (with_history n P)].
Proof.
  intros Hsa. rewrite (srinivas_pgate_run _ hx t P n Hsa).
  do 2 eexists. split; [reflexivity|].
  split; [apply pgate_top_strands | apply pgate_helper_strands].
Qed.

Lemma product_gate_strands_witness :
  exists top helper,
    srinivas_pgate (map species [spA]) (map species [spB; spC]) (h_at 9) 10
    = Some ([top; helper], 11)
    /\ strands helper = [[spf spB; hy_at 10; spf spC]].
Proof.
  destruct (@product_gate_strands (map species [spA]) (sps spA) (h_at 9)
              spB [spC] 10 eq_refl) as (top & helper & H & _ & Hh).
  exists top, helper. split; [exact H | exact Hh].
Defined.

(** X4: on a single product [srinivas_pgate] builds a top complex with the
    same two strands as the complex of [srinivas_pgate_p1], and adds a
    helper complex that is the [f] of the product alone; neither of them
    allocates a domain. *)
Theorem product_gate_single (r : list cplx) (sa hx : domain) (t : sp) (n : nat) :
  field (idx r (len r - 1)) "s" = Some sa ->
  exists c top helper,
    srinivas_pgate_p1 r (map species [t]) hx n = Some ([c], n)
    /\ srinivas_pgate r (map species [t]) hx n = Some ([top; helper], n)
    /\ strands c = [[hx; spf t; spm t; sps t]; [comp (spf t); comp hx; comp sa]]
    /\ strands top = strands c
    /\ strands helper = [[spf t]].
Proof.
  intros Hsa.
  rewrite (srinivas_pgate_p1_run _ hx t [] n Hsa).
  rewrite (srinivas_pgate_run _ hx t [] n Hsa), Nat.add_0_r.
  do 3 eexists. repeat split.
Qed.

Lemma product_gate_single_witness :
  exists c top helper,
    srinivas_pgate_p1 (map species [spA]) (map species [spB]) (h_at 6) 7
    = Some ([c], 7)
    /\ srinivas_pgate (map species [spA]) (map species [spB]) (h_at 6) 7
       = Some ([top; helper], 7)
    /\ strands top = strands c.
Proof.
  destruct (@product_gate_single (map species [spA]) (sps spA) (h_at 6)
              spB 7 eq_refl) as (c & top & helper & H1 & H2 & _ & H4 & _).
  now exists c, top, helper.
Defined.

(** X5: compiling a reaction between formal species advances the allocator
    by the number of its products, and by three more when it has no
    reactant (the synthesized fuel species). *)
Theorem rxn_allocation (R P : list sp) (rev : bool) (n : nat) :
  exists s,
    rxn (rx R P rev) n
    = Some (s, n + (match R with [] => 3 | _ => 0 end) + List.length P).
Proof.
  rewrite rxn_run. eexists. do 2 f_equal.
  unfold produce_end, react_end, flux_cost.
  destruct R, P as [|t [|u P]]; cbn [List.length]; lia.
Qed.

(** X6: the reactant side of a reaction is always two complexes, whatever
    the number of reactants, and the product side is none, one or two
    complexes for no, one or more products. *)
Theorem gate_sizes (R P : list sp) (rev : bool) (n : nat) :
  exists react n1 prod n2,
    react_of (rx R P rev) n = Some (react, n1)
    /\ produce_of (rx R P rev) react n1 = Some (prod, n2)
    /\ List.length react = 2
    /\ List.length prod = Nat.min 2 (List.length P).
Proof.
  rewrite react_of_run. do 4 eexists. split; [reflexivity|].
  split; [apply produce_of_run|].
  split; [destruct R; reflexivity|].
  destruct P as [|t [|u P]]; reflexivity.
Qed.

Lemma react_core_strand (n : nat) (R P : list sp) :
  exists core rest mr,
    react_at n R P = core :: rest
    /\ In (mr :: anchor_s n R :: flux_domains (dname (handle n R)) P)
          (strands core).
Proof.
  destruct R as [|a R]; cbn [react_at anchor_s handle h_at dname].
  - do 3 eexists. split; [reflexivity|].
    rewrite r0_core_strands. now left.
  - do 3 eexists. split; [reflexivity|].
    rewrite rgate_core_strands. apply in_or_app; right. now left.
Qed.

Lemma produce_top_strand (n : nat) (R : list sp) (t : sp) (P : list sp) :
  exists top rest pre,
    produce_at n R (t :: P) = top :: rest
    /\ last (strands top) []
       = (pre ++ [comp (spf t); comp (handle n R); comp (anchor_s n R)])%list
    /\ (P = [] -> pre = []).
Proof.
  destruct P as [|u P]; cbn [produce_at].
  - exists (p1_top (anchor_s n R) (handle n R) t), [], [].
    now repeat split.
  - do 2 eexists.
    exists (List.rev (map comp (history_domains
              (with_history (react_end n R (t :: u :: P)) (u :: P))))).
    split; [reflexivity|]. split; [|discriminate].
    rewrite pgate_top_strands.
    change (?x :: ?l ++ [?y])%list with ((x :: l) ++ [y])%list.
    rewrite last_last. cbn [map List.rev]. rewrite <- !app_assoc. reflexivity.
Qed.

(** X7: the two sides of a reaction fit together.  The core of the reactant
    gate has the strand [mr sr h ...] that ends in the flux, and the bottom
    strand of the first product complex ends in [f* h* sr*], with [f] the
    first product's toehold, [h] the flux handle and [sr] the toehold of
    the last reactant (of the fuel species when there is no reactant).
    With one product the flux is [h f], so that bottom strand is the
    reverse complement of [sr h f], the end of the released strand. *)
Theorem gates_compose (R : list sp) (t : sp) (P : list sp) (rv : bool)
        (n : nat) :
  exists core rest n1 top rest' n2 mr sr h up pre,
    react_of (rx R (t :: P) rv) n = Some (core :: rest, n1)
    /\ produce_of (rx R (t :: P) rv) (core :: rest) n1
       = Some (top :: rest', n2)
    /\ In (mr :: sr :: h :: up) (strands core)
    /\ last (strands top) [] = (pre ++ [comp (spf t); comp h; comp sr])%list
    /\ (P = [] -> up = [spf t] /\ pre = []).
Proof.
  destruct (react_core_strand n R (t :: P)) as (core & rest & mr & Er & Hin).
  destruct (produce_top_strand n R t P) as (top & rest' & pre & Ep & Hl & Hp).
  exists core, rest, (react_end n R (t :: P)), top, rest',
         (produce_end n R (t :: P)), mr, (anchor_s n R), (handle n R).
  exists (match P with [] => [spf t] | _ => [] end), pre.
  rewrite <- Er, <- Ep.
  split; [apply react_of_run|]. split; [apply produce_of_run|].
  split.
  - replace (handle n R :: match P with [] => [spf t] | _ => [] end)
      with (flux_domains (dname (handle n R)) (t :: P)); [exact Hin|].
    destruct R, P; reflexivity.
  - split; [exact Hl|].
    intros ->. split; [reflexivity | now apply Hp].
Qed.

(** X8: with two or more products the reactant side does not depend on
    which species the products are: the flux is the handle [h] alone. *)
Theorem reactant_side_ignores_products (R : list sp) (t u t' u' : sp)
        (P P' : list sp) (rev rev' : bool) (n : nat) :
  react_of (rx R (t :: u :: P) rev) n = react_of (rx R (t' :: u' :: P') rev') n.
Proof. now rewrite !react_of_run. Qed.

End Strands.

(** ** Composition of networks and the members of a solution *)

Section Composition.

Local Open Scope string_scope.

Lemma mapM_app {A B} (f : A -> M B) (l1 l2 : list A) (n : nat) :
  mapM f (l1 ++ l2) n
  = match mapM f l1 n with
    | Some (v1, n1) =>
        match mapM f l2 n1 with
        | Some (v2, n2) => Some ((v1 ++ v2)%list, n2)
        | None => None
        end
    | None => None
    end.
Proof.
  revert n; induction l1 as [|a l1 IH]; intros n.
  - cbn [app mapM]. unfold ret. now destruct (mapM f l2 n) as [[v2 n2]|].
  - cbn [app mapM]. unfold bind, ret.
    destruct (f a n) as [[b n0]|]; [|reflexivity].
    rewrite IH.
    destruct (mapM f l1 n0) as [[v1 n1]|]; [|reflexivity].
    destruct (mapM f l2 n1) as [[v2 n2]|]; reflexivity.
Qed.

Lemma sum_concat (l : list solution) : sum l = List.concat l.
Proof.
  induction l as [|x [|y l] IH]; [reflexivity| |].
  - cbn [sum List.concat]. now rewrite app_nil_r.
  - change (sum (x :: y :: l)) with (x ++ sum (y :: l))%list.
    now rewrite IH.
Qed.

(** X12: [main] composes over the concatenation of two networks: when the
    first compiles and the second compiles from the counter the first
    leaves, the concatenation compiles to the two solutions together and
    leaves the counter of the second. *)
Theorem main_app (c1 c2 : list reaction) (n n1 n2 : nat) (s1 s2 : solution) :
  main c1 n = Some (s1, n1) ->
  main c2 n1 = Some (s2, n2) ->
  main (c1 ++ c2) n = Some ((s1 ++ s2)%list, n2).
Proof.
  unfold main, map', bind, ret, irrev_reactions. intros H1 H2.
  rewrite flat_map_app, mapM_app.
  destruct (mapM rxn (flat_map _ c1) n) as [[v1 m1]|]; [|discriminate].
  injection H1 as <- <-.
  destruct (mapM rxn (flat_map _ c2) m1) as [[v2 m2]|]; [|discriminate].
  injection H2 as <- <-.
  now rewrite !sum_concat, concat_app.
Qed.

Lemma main_app_witness :
  exists s1 s2 n1 n2,
    main [rx [spA] [spB] false] 9 = Some (s1, n1)
    /\ main [rx [spB] [spC] true] n1 = Some (s2, n2)
    /\ main [rx [spA] [spB] false; rx [spB] [spC] true] 9
       = Some ((s1 ++ s2)%list, n2).
Proof.
  do 4 eexists. split; [reflexivity|]. split; [reflexivity|].
  eapply (@main_app [rx [spA] [spB] false] [rx [spB] [spC] true]);
    reflexivity.
Defined.

Lemma mapM_forall {A B} (f : A -> M B) (Q : B -> Prop) (l : list A) :
  (forall a n b n', f a n = Some (b, n') -> Q b) ->
  forall n v n', mapM f l n = Some (v, n') -> Forall Q v.
Proof.
  intros Hf. induction l as [|a l IH]; intros n v n' H; cbn [mapM] in H.
  - injection H as <- _. constructor.
  - unfold bind in H.
    destruct (f a n) as [[b n0]|] eqn:E; [|discriminate].
    destruct (mapM f l n0) as [[bs n1]|] eqn:E'; [|discriminate].
    injection H as <- _. constructor; eauto.
Qed.

(** X15: every complex of a compiled network, on any input, is a member of
    the solution at infinite concentration: [main] returns gates and fuels
    only, wrapped by [infty] one by one. *)
Theorem main_all_infinite (crn : list reaction) (n n' : nat) (s : solution) :
  main crn n = Some (s, n') ->
  forall x, In x s -> m_infinite x = true.
Proof.
  unfold main, bind, ret. intros H x Hx.
  destruct (map' rxn (irrev_reactions crn) n) as [[v n0]|] eqn:E;
    [|discriminate].
  injection H as <- _.
  assert (HF : Forall (fun s0 => forall y, In y s0 -> m_infinite y = true) v).
  { apply (@mapM_forall _ _ rxn _ (irrev_reactions crn)) with (n := n) (n' := n0);
      [|exact E].
    intros r m s0 m' Hr y Hy. unfold rxn, bind, ret in Hr.
    destruct (react_of r m) as [[react m1]|]; [|discriminate].
    destruct (produce_of r react m1) as [[prod m2]|]; [|discriminate].
    injection Hr as <- _. rewrite sum_infty in Hy.
    apply in_map_iff in Hy as (c & <- & _). reflexivity. }
  apply in_sum in Hx as (s0 & Hs0 & Hx).
  exact (proj1 (Forall_forall _ _) HF s0 Hs0 x Hx).
Qed.

Lemma main_all_infinite_witness :
  Forall (fun x => m_infinite x = true)
         (sum (rxns_at 9 (instances [([spA; spB], [spC], true)]))).
Proof.
  apply Forall_forall.
  apply (@main_all_infinite [rx [spA; spB] [spC] true] 9 12).
  vm_compute. reflexivity.
Defined.

End Composition.

(** ** Species made by [formal] *)

Section Formal.

Local Open Scope string_scope.

Lemma map_formal_run (names : list string) (n : nat) :
  map' formal names n
  = Some (map species (species_from n (List.length names)),
          n + 3 * List.length names).
Proof.
  unfold map'. revert n; induction names as [|x names IH]; intros n.
  - cbn. unfold ret. now rewrite Nat.add_0_r.
  - cbn [mapM List.length species_from map]. unfold bind at 1.
    rewrite formal_run. unfold bind at 1. rewrite IH. unfold ret.
    do 2 f_equal. lia.
Qed.

Lemma species_from_names (n k : nat) :
  map dname (species_domains (species_from n k)) = seq n (3 * k).
Proof.
  revert n; induction k as [|k IH]; intros n; [reflexivity|].
  replace (3 * S k) with (3 + 3 * k) by lia.
  rewrite seq_app. cbn [species_from].
  change (species_domains (formal_at n :: species_from (n + 3) k))
    with ([spf (formal_at n); spm (formal_at n); sps (formal_at n)]
          ++ species_domains (species_from (n + 3) k))%list.
  rewrite map_app, IH. cbn [map seq app spf spm sps formal_at fst snd dname].
  repeat (f_equal; try lia).
Qed.

Lemma main_output_names (l : list (list sp * list sp * bool)) (n : nat) :
  names_unique (crn_domains l) ->
  (forall d, In d (crn_domains l) -> dname d < n) ->
  names_unique (solution_domains (sum (rxns_at n (instances l)))).
Proof.
  intros HU Hlt.
  set (F := issued_all n (instances l)).
  set (U := (map base (crn_domains l) ++ F)%list).
  destruct (issued_all_names (instances l) n) as (EF & BF & _).
  assert (HD : forall d, In d (instance_domains (instances l)) -> In (base d) U).
  { intros d Hd. apply in_or_app; left. apply in_map.
    now apply instances_domains. }
  assert (HI : forall d, In d F -> In (base d) U).
  { intros d Hd. apply in_or_app; right.
    now rewrite (proj1 (Forall_forall _ _) BF d Hd). }
  intros d e Hd He E.
  apply (@names_unique_universe _ _ _ _ HU Hlt EF BF d e); [| |exact E].
  - unfold solution_domains in Hd. apply in_flat_map in Hd as (x & Hx & Hd).
    apply in_sum in Hx as (s0 & Hs0 & Hx).
    pose proof (rxns_in U (instances l) n s0 x HD HI Hs0 Hx) as HC.
    exact (proj1 (Forall_forall _ _) HC (Dom d) (in_domains _ _ Hd)).
  - unfold solution_domains in He. apply in_flat_map in He as (x & Hx & He).
    apply in_sum in Hx as (s0 & Hs0 & Hx).
    pose proof (rxns_in U (instances l) n s0 x HD HI Hs0 Hx) as HC.
    exact (proj1 (Forall_forall _ _) HC (Dom e) (in_domains _ _ He)).
Qed.

(** X16: species made by [formal] can be compiled as they are.  Consecutive
    calls of [formal] give species with the attributes [f], [m], [s], and
    any network over the domains of these species, compiled from the
    counter the calls leave, returns a solution of well-formed complexes in
    which no two distinct domains share a name. *)
Theorem formal_species_compile (names : list string) (n : nat)
        (l : list (list sp * list sp * bool)) :
  let S := species_from n (List.length names) in
  (forall d, In d (crn_domains l) -> In d (species_domains S)) ->
  map' formal names n = Some (map species S, n + 3 * List.length names)
  /\ Forall (fun t => dom_attr (species t) "f" = Some (spf t)
                      /\ dom_attr (species t) "m" = Some (spm t)
                      /\ dom_attr (species t) "s" = Some (sps t)) S
  /\ exists s n',
       main (crn_of l) (n + 3 * List.length names) = Some (s, n')
       /\ (forall x, In x s -> well_formed (m_cplx x) = true)
       /\ names_unique (solution_domains s).
Proof.
  intros S Hin. split; [apply map_formal_run|].
  split; [apply Forall_forall; intros t _; now repeat split|].
  rewrite main_run. do 2 eexists. split; [reflexivity|]. split.
  - intros x Hx. apply in_sum in Hx as (s0 & Hs0 & Hx).
    exact (rxns_well_formed _ _ _ _ Hs0 Hx).
  - pose proof (species_from_names n (List.length names)) as HN.
    apply main_output_names.
    + intros d e Hd He E.
      assert (ND : NoDup (map dname (species_domains S)))
        by (unfold S; rewrite HN; apply seq_NoDup).
      now rewrite (nodup_map_inj dname _ d e ND (Hin d Hd) (Hin e He) E).
    + intros d Hd. apply Hin, (in_map dname) in Hd.
      unfold S in Hd. rewrite HN in Hd. apply in_seq in Hd. lia.
Qed.

Lemma formal_species_compile_witness :
  exists s n',
    main (crn_of [([spA; spB], [spC], true)]) 9 = Some (s, n')
    /\ names_unique (solution_domains s).
Proof.
  destruct (@formal_species_compile ["A"; "B"; "C"] 0
              [([spA; spB], [spC], true)]) as (_ & _ & s & n' & H & _ & HU).
  - intros d Hd. exact Hd.
  - now exists s, n'.
Defined.

Lemma produce_end_cost (n : nat) (R P : list sp) :
  produce_end n R P = n + rxn_cost R P.
Proof.
  unfold produce_end, react_end, flux_cost, rxn_cost.
  destruct R, P as [|t [|u P]]; cbn [List.length]; lia.
Qed.

(** X17: compiling a network between formal species always returns, and
    advances the allocator by the number of products of every reaction,
    three more for every reaction without reactants, a reversible reaction
    counted once in each direction. *)
Theorem main_allocation (l : list (list sp * list sp * bool)) (n : nat) :
  exists s, main (crn_of l) n = Some (s, n + crn_cost l).
Proof.
  rewrite main_run. eexists. do 2 f_equal.
  unfold crn_cost, instances.
  revert n; induction l as [|[[R P] [|]] l IH]; intros n;
    cbn [flat_map map list_sum fold_right app rxns_end fst snd].
  - lia.
  - rewrite IH, !produce_end_cost. unfold list_sum. lia.
  - rewrite IH, !produce_end_cost. unfold list_sum. lia.
Qed.

(** X11: at an index [i] that is not negative, [reactg(r, i)] on a list
    of formal species has a value exactly when [i < len(r) - 1], the
    indices [srinivas_rgate] maps it over: it reads reactant [i] and
    reactant [i + 1]; and it allocates nothing. *)
Theorem reactg_bounds (R : list sp) (i : Z) (n : nat) :
  (0 <= i)%Z ->
  ((exists v, reactg (map species R) i n = Some (v, n))
   <-> (i < len R - 1)%Z).
Proof.
  intros Hpos. unfold len. split.
  - intros (v & H). unfold reactg, bind in H.
    destruct (lift (field (idx (map species R) i) "m") n) as [[mb n1]|];
      [|discriminate].
    destruct (lift (field (idx (map species R) i) "s") n1) as [[sb n2]|];
      [|discriminate].
    replace (i + 1)%Z with (Z.of_nat (S (Z.to_nat i))) in H by lia.
    destruct (field_species R (S (Z.to_nat i))) as (Hf & _).
    rewrite Hf in H.
    destruct (nth_error R (S (Z.to_nat i))) eqn:E; [|discriminate].
    assert (S (Z.to_nat i) < List.length R)
      by (apply nth_error_Some; congruence).
    lia.
  - intros Hlt.
    assert (H1 : Z.to_nat i < List.length R) by lia.
    assert (H2 : S (Z.to_nat i) < List.length R) by lia.
    apply nth_error_Some in H1, H2.
    destruct (nth_error R (Z.to_nat i)) as [x|] eqn:Ex; [|congruence].
    destruct (nth_error R (S (Z.to_nat i))) as [y|] eqn:Ey; [|congruence].
    destruct (nth_error_split _ _ Ex) as (pre & post & -> & Hlen).
    destruct post as [|y' post].
    { rewrite nth_error_app2 in Ey by lia.
      replace (S (Z.to_nat i) - List.length pre) with 1 in Ey by lia.
      discriminate Ey. }
    exists (reactg_row (spm x, sps x, spf y')).
    replace i with (Z.of_nat (List.length pre)) by lia.
    apply reactg_run.
Qed.

Lemma reactg_bounds_witness :
  (exists v, reactg (map species [spA; spB]) 0 6 = Some (v, 6))
  <-> (0 < len [spA; spB] - 1)%Z.
Proof.
  apply (@reactg_bounds [spA; spB] 0%Z 6). lia.
Defined.

End Formal.
